(** * CTE: collaborative text editor backend

    A shallow embedding of the WebSocket gateway of [backend/src/server.ts]
    (connection handshake, access gate, session registry, frame handler),
    of its REST endpoints (accounts, documents, sharing, tabs) and of the
    operational-transformation session engine the gateway drives.

    The gateway is translated from the TypeScript source.  The class
    [DocumentSession] it imports from [./services/DocumentSession] is not
    part of the sources at hand; module [OT] models it from the design
    document, and the gateway takes its methods as parameters. *)

From Stdlib Require Import Arith Lia List Ascii String Permutation.
From Stdlib Require Import OrderedTypeEx.
From stdpp Require Import base option list sorting gmap strings.

Local Open Scope nat_scope.

(** Document text is a linear sequence of characters. *)
Abbreviation text := (list ascii).

Definition txt (s : string) : text := list_ascii_of_string s.

(** ** The OT engine and the document state *)

Module OT.

(** Modelled from the spec: the [Operation] record of the missing
    [DocumentSession] service (section 3, "Operation"). *)
Inductive OpKind := KInsert | KDelete | KFormatRange.

Record Operation := mkOp {
  op_kind : OpKind;
  op_position : nat;
  op_content : text;       (* text, for insert *)
  op_length : nat;         (* for delete / formatRange *)
  op_baseVersion : nat;
  op_originId : string;
  op_clientSeq : nat
}.

(** Modelled from the spec: "adjusted position/length" (section 4.1), an
    operation with its position, or its position and length, replaced and
    every other field kept. *)
Definition with_position (op : Operation) (p : nat) : Operation :=
  mkOp (op_kind op) p (op_content op) (op_length op)
       (op_baseVersion op) (op_originId op) (op_clientSeq op).

Definition with_range (op : Operation) (p l : nat) : Operation :=
  mkOp (op_kind op) p (op_content op) l
       (op_baseVersion op) (op_originId op) (op_clientSeq op).

(** Modelled from the spec: the insert-vs-insert rule of section 4.1.  The
    prior insert shifts this one when it sits strictly to the left, and on
    an exact position tie when its [originId] is the lexicographically
    smaller one (equal ids fall back to commit order). *)
Definition prior_first (prior op : Operation) : bool :=
  (op_position prior <? op_position op)
  || ((op_position prior =? op_position op)
      && String.leb (op_originId prior) (op_originId op)).

(** Modelled from the spec: where an end point of a range lands once the
    prior delete [[q, q+l)] is gone (delete-vs-delete rule, section 4.1). *)
Definition after_delete (q l x : nat) : nat :=
  if x <=? q then x else if x <=? q + l then q else x - l.

(** Modelled from the spec: one step of [transform] (section 4.1, "Transform
    rules"), this operation against one operation committed before it.
    - insert vs insert: shifted right by the prior content when the prior
      insert comes first ([prior_first]);
    - insert vs delete: shifted left by the deleted length when the deleted
      range lies entirely before the position, clamped to the start of the
      range when the range contains the position;
    - delete vs insert: shifted right when the prior insert lies before the
      range, widened by the inserted length when it lies within it;
    - delete vs delete: the range minus the overlap with the prior range,
      in the coordinates left by the prior delete;
    - formatRange vs insert or delete: as a delete range;
    - anything vs formatRange: unchanged, formatting moves no text. *)
Definition transform1 (op prior : Operation) : Operation :=
  match op_kind op, op_kind prior with
  | KInsert, KInsert =>
      if prior_first prior op
      then with_position op (op_position op + length (op_content prior))
      else op
  | KInsert, KDelete =>
      let q := op_position prior in
      let l := op_length prior in
      if q + l <=? op_position op then with_position op (op_position op - l)
      else if q <? op_position op then with_position op q
      else op
  | (KDelete | KFormatRange), KInsert =>
      let q := op_position prior in
      let n := length (op_content prior) in
      if q <=? op_position op
      then with_position op (op_position op + n)
      else if q <? op_position op + op_length op
      then with_range op (op_position op) (op_length op + n)
      else op
  | (KDelete | KFormatRange), KDelete =>
      let q := op_position prior in
      let l := op_length prior in
      let s := after_delete q l (op_position op) in
      let e := after_delete q l (op_position op + op_length op) in
      with_range op s (e - s)
  | _, KFormatRange => op
  end.

(** Modelled from the spec: [transform(op, concurrentOps)], a fold of the
    operation through the operations committed since its base version, in
    commit order. *)
Definition transform (op : Operation) (concurrentOps : list Operation)
  : Operation :=
  fold_left transform1 concurrentOps op.

(** Modelled from the spec: inserting text at an offset of the linear
    content, and removing a range of it (section 3). *)
Definition insert_at (p : nat) (u : text) (c : text) : text :=
  take p c ++ u ++ drop p c.

Definition remove_range (p l : nat) (c : text) : text :=
  take p c ++ drop (p + l) c.

(** Modelled from the spec: the effect of an operation on the content
    (formatting is not part of the linear content). *)
Definition apply_op (op : Operation) (c : text) : text :=
  match op_kind op with
  | KInsert => insert_at (op_position op) (op_content op) c
  | KDelete => remove_range (op_position op) (op_length op) c
  | KFormatRange => c
  end.

(** Modelled from the spec: the range invariant of section 3, [position]
    and [position+length] within [[0, currentLength]]. *)
Definition in_range (op : Operation) (c : text) : bool :=
  match op_kind op with
  | KInsert => op_position op <=? length c
  | KDelete | KFormatRange => op_position op + op_length op <=? length c
  end.

(** Modelled from the spec: the [Document State] record of section 3. *)
Record DocumentState := mkState {
  content : text;
  version : nat;
  history : list Operation
}.

(** Modelled from the spec: [version] starts at 0, on an empty document. *)
Definition initial_state : DocumentState := mkState [] 0 [].

(** Modelled from the spec: the error kinds of section 7 that [submit]
    can answer with. *)
Inductive SubmitError := PermissionDenied | ProtocolError.

(** Modelled from the spec: step 3 of [submit], the operation transformed
    against the history committed since its base version; [history[i]] is
    the operation that led from version [i] to [i+1]. *)
Definition transformed (op : Operation) (st : DocumentState) : Operation :=
  transform op (drop (op_baseVersion op) (history st)).

(** Modelled from the spec: steps 3 and 4 of [submit] (section 4.2):
    transform against the history entries committed since the base
    version, validate, apply, increment [version], append to [history].
    An operation based on a version the session has not reached, or out of
    range after transformation, is dropped as [ProtocolError]. *)
Definition commit (op : Operation) (st : DocumentState)
  : SubmitError + DocumentState :=
  if version st <? op_baseVersion op then inl ProtocolError
  else
    let op' := transformed op st in
    if in_range op' (content st)
    then inr (mkState (apply_op op' (content st))
                      (S (version st))
                      (history st ++ [op']))
    else inl ProtocolError.

(** Modelled from the spec: per-operation errors never tear down the
    session (section 7); a rejected operation leaves the state as it was
    and the session continues with the next one. *)
Definition commit_or_drop (st : DocumentState) (op : Operation)
  : DocumentState :=
  match commit op st with
  | inr st' => st'
  | inl _ => st
  end.

(** Modelled from the spec: operations are applied one at a time, in
    arrival order (step 2 of [submit]). *)
Definition apply_all (ops : list Operation) (st : DocumentState)
  : DocumentState :=
  fold_left commit_or_drop ops st.

(** An insert and a delete, as a client submits them. *)
Definition ins (p : nat) (c : string) (base : nat) (origin : string)
  : Operation :=
  mkOp KInsert p (txt c) 0 base origin 0.

Definition del (p l : nat) (base : nat) (origin : string) : Operation :=
  mkOp KDelete p [] l base origin 0.

(** Modelled from the spec: the invariant of the [Document State], one
    history entry per version (the history is not truncated here). *)
Definition well_formed (st : DocumentState) : Prop :=
  length (history st) = version st.

(** A document typed by one client, "hello" at version 5. *)
Definition hello_state : DocumentState :=
  Eval vm_compute in
    apply_all [ins 0 "h" 0 "c1"; ins 1 "e" 1 "c1"; ins 2 "l" 2 "c1";
               ins 3 "l" 3 "c1"; ins 4 "o" 4 "c1"] initial_state.

(** The session seen from one base version: the content, and the
    operations committed since that version. *)
Definition View : Type := text * list Operation.

Definition absorb (cs : View) (op : Operation) : View :=
  let op' := transform op (snd cs) in
  (apply_op op' (fst cs), snd cs ++ [op']).

Definition absorb_all (ops : list Operation) (cs : View) : View :=
  fold_left absorb ops cs.

Definition is_insert (op : Operation) : Prop := op_kind op = KInsert.

(** An insert produced by a client that saw [st]. *)
Definition concurrent_insert (st : DocumentState) (op : Operation) : Prop :=
  is_insert op
  /\ op_baseVersion op = version st
  /\ op_position op <= length (content st).

(** An operation produced by a client that saw [st]. *)
Definition concurrent (st : DocumentState) (op : Operation) : Prop :=
  op_baseVersion op = version st /\ in_range op (content st) = true.

(** Every operation in range of the base text [c0] is still in range of
    the current text once transformed through the view. *)
Definition sound (c0 : text) (cs : View) : Prop :=
  forall x, in_range x c0 = true ->
    in_range (transform x (snd cs)) (fst cs) = true.

(** Of two operations, the one whose origin id is lexicographically
    smaller, and the other one. *)
Definition lower (a b : Operation) : Operation :=
  if String.leb (op_originId a) (op_originId b) then a else b.

Definition upper (a b : Operation) : Operation :=
  if String.leb (op_originId a) (op_originId b) then b else a.

(** The overlap of the ranges [[p, p+l)] and [[q, q+m)]. *)
Definition overlap (p l q m : nat) : nat :=
  Nat.min (p + l) (q + m) - Nat.max p q.







(** Modelled from the spec: the two ways in which the transform rules of
    section 4.1 let two concurrent operations end differently in the two
    commit orders.  An insert of some text strictly inside the range of a
    delete is clamped to the start of the range and kept when the delete
    is committed first, and deleted with the widened range when it is
    committed second; two inserts of one origin at one position are put
    in arrival order. *)
Definition swallowed (x d : Operation) : Prop :=
  is_insert x /\ op_kind d = KDelete /\ op_content x <> []
  /\ op_position d < op_position x < op_position d + op_length d.

Definition conflict (a b : Operation) : Prop :=
  swallowed a b \/ swallowed b a
  \/ (is_insert a /\ is_insert b
      /\ op_position a = op_position b /\ op_originId a = op_originId b
      /\ op_content a ++ op_content b <> op_content b ++ op_content a).

End OT.

(** ** The document session *)

Module Session.
Import OT.

(** Modelled from the spec: the [Connection Session] record and the roles
    of section 3. *)
Inductive Role := owner | editor | commenter | viewer.

Record ConnectionSession := mkConn {
  connectionId : string;
  userId : string;
  role : Role;
  cursor : option (nat * nat);
  lastKnownVersion : nat
}.

(** Modelled from the spec: the outbound messages of section 6. *)
Inductive ServerMessage :=
| MsgSnapshot (c : text) (v : nat)
| MsgOp (v : nat) (op : Operation)
| MsgPresence (user : string) (cur : option (nat * nat))
| MsgJoin (user : string)
| MsgLeave (user : string)
| MsgError (message : string).

(** Modelled from the spec: one fan-out, the connections a message goes
    to and the message. *)
Definition Output : Type := list string * ServerMessage.

(** Modelled from the spec: the [Document Session] container of section 3
    (the operation queue is the order of the calls). *)
Record DocumentSession := mkSession {
  state : DocumentState;
  connections : list ConnectionSession
}.

(** Modelled from the spec: a session is created empty, at version 0. *)
Definition new_session : DocumentSession := mkSession initial_state [].

(** Modelled from the spec: the connection a call comes from, and every
    other connection of the session (echo suppression, step 5). *)
Definition find_connection (cid : string) (s : DocumentSession)
  : option ConnectionSession :=
  List.find (fun c => String.eqb (connectionId c) cid) (connections s).

Definition others (cid : string) (s : DocumentSession) : list string :=
  connectionId <$>
    List.filter (fun c => negb (String.eqb (connectionId c) cid)) (connections s).

(** Modelled from the spec: step 1 of [submit], which roles may submit an
    operation on the document body. *)
Definition may_edit (r : Role) : bool :=
  match r with
  | owner | editor => true
  | commenter | viewer => false
  end.

(** Modelled from the spec: [admit(connection, role)] of section 4.2, with
    the id the server assigns taken as an argument. *)
Definition admit_connection (cid user : string) (r : option Role) (s : DocumentSession)
  : DocumentSession * list Output :=
  match r with
  | None => (s, [([cid], MsgError "Access Denied.")])
  | Some r =>
      (mkSession (state s)
                 (connections s ++ [mkConn cid user r None (version (state s))]),
       [([cid], MsgSnapshot (content (state s)) (version (state s)));
        (others cid s, MsgJoin user)])
  end.

(** Modelled from the spec: [originId] is the submitting connection
    (section 3); the inbound frame of section 6 does not carry it. *)
Definition stamp (cid : string) (op : Operation) : Operation :=
  mkOp (op_kind op) (op_position op) (op_content op) (op_length op)
       (op_baseVersion op) cid (op_clientSeq op).

(** Modelled from the spec: [submit(connectionId, operation)] of section
    4.2, steps 1 to 5 (the write-through of step 6 goes to the external
    stores).  The broadcast carries the transformed operation and the new
    version, to every connection but the originator. *)
Definition submit (cid : string) (op : Operation) (s : DocumentSession)
  : DocumentSession * list Output :=
  match find_connection cid s with
  | None => (s, [([cid], MsgError "PermissionDenied")])
  | Some c =>
      if may_edit (role c) then
        match commit (stamp cid op) (state s) with
        | inr st' =>
            (mkSession st' (connections s),
             [(others cid s,
               MsgOp (version st') (transformed (stamp cid op) (state s)))])
        | inl _ => (s, [([cid], MsgError "ProtocolError")])
        end
      else (s, [([cid], MsgError "PermissionDenied")])
  end.

(** Modelled from the spec: [remove(connectionId)] of section 4.2. *)
Definition remove (cid : string) (s : DocumentSession)
  : DocumentSession * list Output :=
  match find_connection cid s with
  | None => (s, [])
  | Some c =>
      let rest :=
        List.filter (fun c => negb (String.eqb (connectionId c) cid))
                    (connections s) in
      (mkSession (state s) rest, [(connectionId <$> rest, MsgLeave (userId c))])
  end.

(** Modelled from the spec: the public contract of the session (section
    4.2) as calls. *)
Inductive Call :=
| CAdmit (cid user : string) (r : option Role)
| CSubmit (cid : string) (op : Operation)
| CRemove (cid : string).

Definition call (c : Call) (s : DocumentSession)
  : DocumentSession * list Output :=
  match c with
  | CAdmit cid user r => admit_connection cid user r s
  | CSubmit cid op => submit cid op s
  | CRemove cid => remove cid s
  end.

(** Modelled from the spec: the session serves its calls one at a time,
    in arrival order (section 5). *)
Fixpoint serve (cs : list Call) (s : DocumentSession)
  : DocumentSession * list Output :=
  match cs with
  | [] => (s, [])
  | c :: cs =>
      let '(s1, o1) := call c s in
      let '(s2, o2) := serve cs s1 in
      (s2, o1 ++ o2)
  end.

(** The versions carried by the broadcast operations, in emission order. *)
Fixpoint op_versions (outs : list Output) : list nat :=
  match outs with
  | [] => []
  | (_, MsgOp v _) :: outs => v :: op_versions outs
  | _ :: outs => op_versions outs
  end.

(** Replaying a history from the empty document. *)
Definition replay (h : list Operation) : text :=
  fold_left (fun c op => apply_op op c) h [].

(** The session a sequence of calls leads to from a new one, and what it
    emitted on the way. *)
Definition session_after (cs : list Call) : DocumentSession :=
  fst (serve cs new_session).

Definition emitted (cs : list Call) : list Output :=
  snd (serve cs new_session).

(** What holds of a session and of everything it has emitted so far. *)
Definition session_inv (s : DocumentSession) (outs : list Output) : Prop :=
  well_formed (state s)
  /\ content (state s) = replay (history (state s))
  /\ StronglySorted lt (op_versions outs)
  /\ Forall (fun v => v <= version (state s)) (op_versions outs)
  /\ (forall r v op, (r, MsgOp v op) ∈ outs ->
        0 < v /\ history (state s) !! (v - 1) = Some op).

(** A call that commits nothing, and a call that commits one operation. *)
Definition quiet_step (s s' : DocumentSession) (o : list Output) : Prop :=
  state s' = state s /\ op_versions o = [].

Definition commit_step (s s' : DocumentSession) (o : list Output) : Prop :=
  exists op rcpt,
    history (state s') = history (state s) ++ [op]
    /\ version (state s') = S (version (state s))
    /\ content (state s') = apply_op op (content (state s))
    /\ o = [(rcpt, MsgOp (version (state s')) op)].

End Session.

(** ** JSON text

    [JSON.parse] and [JSON.stringify] are built into the runtime.  The
    grammar is the one of ECMA-404; number and string lexemes are kept as
    written (escapes are checked, not decoded), which is all the gateway
    looks at. *)

Module Json.

#[warnings="-register-all"] Inductive JSON :=
| JNull
| JBool (b : bool)
| JNumber (lexeme : string)
| JString (lexeme : string)
| JArray (items : list JSON)
| JObject (members : list (string * JSON)).

Definition dquote : ascii := "034"%char.

Definition is_ws (c : ascii) : bool :=
  (c =? " ")%char || (c =? "009")%char || (c =? "010")%char || (c =? "013")%char.

Fixpoint skip_ws (s : text) : text :=
  match s with
  | c :: r => if is_ws c then skip_ws r else s
  | [] => []
  end.

Definition between (lo hi : nat) (c : ascii) : bool :=
  (lo <=? nat_of_ascii c) && (nat_of_ascii c <=? hi).

Definition is_digit (c : ascii) : bool := between 48 57 c.

Definition is_hex (c : ascii) : bool :=
  is_digit c || between 65 70 c || between 97 102 c.

Definition is_escape (c : ascii) : bool :=
  (c =? dquote)%char || (c =? "\")%char || (c =? "/")%char || (c =? "b")%char
  || (c =? "f")%char || (c =? "n")%char || (c =? "r")%char || (c =? "t")%char.

Fixpoint span (p : ascii -> bool) (s : text) : text * text :=
  match s with
  | c :: r => if p c then let '(a, b) := span p r in (c :: a, b) else ([], s)
  | [] => ([], [])
  end.

(** The characters of a string literal after its opening quote, up to the
    closing one. *)
Fixpoint parse_chars (s : text) (acc : text) : option (text * text) :=
  match s with
  | [] => None
  | c :: r =>
      if (c =? dquote)%char then Some (rev acc, r)
      else if (c =? "\")%char then
        match r with
        | e :: r1 =>
            if is_escape e then parse_chars r1 (e :: c :: acc)
            else if (e =? "u")%char then
              match r1 with
              | h1 :: h2 :: h3 :: h4 :: r2 =>
                  if is_hex h1 && is_hex h2 && is_hex h3 && is_hex h4
                  then parse_chars r2 (h4 :: h3 :: h2 :: h1 :: e :: c :: acc)
                  else None
              | _ => None
              end
            else None
        | [] => None
        end
      else if nat_of_ascii c <? 32 then None
      else parse_chars r (c :: acc)
  end.

Definition digits1 (s : text) : option (text * text) :=
  match span is_digit s with
  | ([], _) => None
  | (ds, r) => Some (ds, r)
  end.

Definition parse_number (s : text) : option (text * text) :=
  let '(sign, s1) :=
    match s with
    | c :: r => if (c =? "-")%char then ([c], r) else ([], s)
    | [] => ([], s)
    end in
  match s1 with
  | d :: r1 =>
      if is_digit d then
        let '(int, s2) :=
          if (d =? "0")%char then ([d], r1)
          else let '(ds, r) := span is_digit r1 in (d :: ds, r) in
        let frac :=
          match s2 with
          | c :: r =>
              if (c =? ".")%char then
                match digits1 r with
                | Some (ds, r') => Some (c :: ds, r')
                | None => None
                end
              else Some ([], s2)
          | [] => Some ([], s2)
          end in
        match frac with
        | None => None
        | Some (fr, s3) =>
            match s3 with
            | c :: r =>
                if (c =? "e")%char || (c =? "E")%char then
                  let '(sg, r') :=
                    match r with
                    | g :: r' =>
                        if (g =? "+")%char || (g =? "-")%char
                        then ([g], r') else ([], r)
                    | [] => ([], r)
                    end in
                  match digits1 r' with
                  | Some (ds, r'') => Some (sign ++ int ++ fr ++ c :: sg ++ ds, r'')
                  | None => None
                  end
                else Some (sign ++ int ++ fr, s3)
            | [] => Some (sign ++ int ++ fr, s3)
            end
        end
      else None
  | [] => None
  end.

Definition literal (word : string) (v : JSON) (s : text)
  : option (JSON * text) :=
  let w := txt word in
  if decide (take (length w) s = w) then Some (v, drop (length w) s) else None.

Fixpoint parse_value (fuel : nat) (s : text) : option (JSON * text) :=
  match fuel with
  | 0 => None
  | S fuel =>
      match skip_ws s with
      | [] => None
      | c :: r =>
          if (c =? "{")%char then
            match skip_ws r with
            | c' :: r' =>
                if (c' =? "}")%char then Some (JObject [], r')
                else parse_members fuel (c' :: r') []
            | [] => None
            end
          else if (c =? "[")%char then
            match skip_ws r with
            | c' :: r' =>
                if (c' =? "]")%char then Some (JArray [], r')
                else parse_elements fuel (c' :: r') []
            | [] => None
            end
          else if (c =? dquote)%char then
            match parse_chars r [] with
            | Some (str, r') => Some (JString (string_of_list_ascii str), r')
            | None => None
            end
          else if (c =? "t")%char then literal "true" (JBool true) (c :: r)
          else if (c =? "f")%char then literal "false" (JBool false) (c :: r)
          else if (c =? "n")%char then literal "null" JNull (c :: r)
          else
            match parse_number (c :: r) with
            | Some (lx, r') => Some (JNumber (string_of_list_ascii lx), r')
            | None => None
            end
      end
  end
with parse_elements (fuel : nat) (s : text) (acc : list JSON)
  : option (JSON * text) :=
  match fuel with
  | 0 => None
  | S fuel =>
      match parse_value fuel s with
      | Some (v, r) =>
          match skip_ws r with
          | c :: r' =>
              if (c =? ",")%char then parse_elements fuel r' (v :: acc)
              else if (c =? "]")%char then Some (JArray (rev (v :: acc)), r')
              else None
          | [] => None
          end
      | None => None
      end
  end
with parse_members (fuel : nat) (s : text) (acc : list (string * JSON))
  : option (JSON * text) :=
  match fuel with
  | 0 => None
  | S fuel =>
      match skip_ws s with
      | q :: r =>
          if (q =? dquote)%char then
            match parse_chars r [] with
            | Some (k, r1) =>
                match skip_ws r1 with
                | c :: r2 =>
                    if (c =? ":")%char then
                      match parse_value fuel r2 with
                      | Some (v, r3) =>
                          let acc' := (string_of_list_ascii k, v) :: acc in
                          match skip_ws r3 with
                          | d :: r4 =>
                              if (d =? ",")%char then parse_members fuel r4 acc'
                              else if (d =? "}")%char
                              then Some (JObject (rev acc'), r4)
                              else None
                          | [] => None
                          end
                      | None => None
                      end
                    else None
                | [] => None
                end
            | None => None
            end
          else None
      | [] => None
      end
  end.

(** [JSON.parse(text)]; [None] stands for the [SyntaxError] it throws. *)
Definition JSON_parse (frame : string) : option JSON :=
  let s := list_ascii_of_string frame in
  match parse_value (2 * length s + 2) s with
  | Some (v, r) => if decide (skip_ws r = []) then Some v else None
  | None => None
  end.

Definition quoted (s : string) : string :=
  String dquote s +:+ String dquote EmptyString.

(** [JSON.stringify(value)], without indentation. *)
Fixpoint JSON_stringify (v : JSON) : string :=
  match v with
  | JNull => "null"
  | JBool true => "true"
  | JBool false => "false"
  | JNumber lx => lx
  | JString lx => quoted lx
  | JArray items =>
      "[" +:+ String.concat "," (List.map JSON_stringify items) +:+ "]"
  | JObject members =>
      "{" +:+ String.concat ","
                (List.map (fun kv => quoted (fst kv) +:+ ":" +:+ JSON_stringify (snd kv))
                          members)
          +:+ "}"
  end.

End Json.

(** ** The WebSocket gateway of server.ts *)

Module Gateway.
Import Json.

(** What a handler does to a socket: [ws.send(data)] and [ws.close(code)],
    the code being optional. *)
Inductive WsAction :=
| Send (ws : nat) (data : string)
| Close (ws : nat) (code : option nat).

(** The class the gateway imports from [./services/DocumentSession]: its
    constructor and the three methods the handlers call, each with the
    frames it sends.  [onTimer] stands for whatever timer callback a
    session may have registered for itself. *)
Class DocumentSessionClass := {
  DocumentSession : Type;
  ConnectionId : Type;
  new_DocumentSession : string -> DocumentSession;
  addUser : nat -> string -> string -> DocumentSession
            -> DocumentSession * ConnectionId * list WsAction;
  handleEdit : ConnectionId -> JSON -> DocumentSession
               -> DocumentSession * list WsAction;
  removeUser : ConnectionId -> DocumentSession
               -> DocumentSession * list WsAction;
  onTimer : DocumentSession -> DocumentSession * list WsAction
}.

(** The keys of the Redis store the handshake reads: [doc_owner:<docId>]
    (a string), [doc_acl:<docId>] and [doc_settings:<docId>] (hashes). *)
Record Redis := mkRedis {
  doc_owner : gmap string string;
  doc_acl : gmap string (gmap string string);
  doc_settings : gmap string (gmap string string)
}.

Definition redis_get (m : gmap string string) (key : string)
  : option string := m !! key.

Definition redis_hget (m : gmap string (gmap string string))
  (key field : string) : option string :=
  m !! key ≫= (fun h => h !! field).

(** Truthiness of a [string | null]: [null] and the empty string are
    falsy. *)
Definition falsy (v : option string) : bool :=
  match v with
  | None => true
  | Some s => String.eqb s ""
  end.

(** [v || d] *)
Definition js_or (v : option string) (d : string) : string :=
  match v with
  | None => d
  | Some s => if String.eqb s "" then d else s
  end.

(** [userId === owner] *)
Definition strict_eq (userId : string) (owner : option string) : bool :=
  match owner with
  | Some o => String.eqb userId o
  | None => false
  end.

Inductive Access :=
| Denied
| Granted (finalRole : option string).

(** Lines 226-232 of the connection handler: from the three values read
    from Redis to [finalRole], or to the refusal. *)
Definition authorize (owner role linkAccess : option string)
  (userId : string) : Access :=
  let linkSetting := js_or linkAccess "none" in
  let is_owner := strict_eq userId owner in
  if negb is_owner && falsy role then
    if negb (String.eqb linkSetting "none")
    then Granted (if is_owner then Some "owner" else Some linkSetting)
    else Denied
  else Granted (if is_owner then Some "owner" else role).

Definition access_gate (redis : Redis) (docId userId : string) : Access :=
  authorize (redis_get (doc_owner redis) docId)
            (redis_hget (doc_acl redis) docId userId)
            (redis_hget (doc_settings redis) docId "link_access")
            userId.

(** The frame sent on refusal: [{ type: 'error', message: 'Access Denied.' }]. *)
Definition access_denied : JSON :=
  JObject [("type", JString "error"); ("message", JString "Access Denied.")].

(** The query parameters of the handshake, as [urlParams.get] returns
    them. *)
Record Request := mkRequest {
  q_docId : option string;
  q_tabId : option string;
  q_userId : option string
}.

Definition sessionKey (docId tabId : string) : string :=
  docId +:+ "::" +:+ tabId.

Section Server.
Context `{DocumentSessionClass}.

(** The state of the process: the [sessions] map (its values are object
    references), every [DocumentSession] object constructed so far with
    the key it was constructed with, and for each socket with listeners
    the session and connection id its listeners captured. *)
Record Server := mkServer {
  sessions : gmap string nat;
  objects : list (string * DocumentSession);
  sockets : gmap nat (nat * ConnectionId)
}.

Definition initial_server : Server := mkServer ∅ [] ∅.

(** A handler returns, leaving a state of the process, or throws an
    exception nothing catches, which ends the process; either way with
    what it has sent and closed until then. *)
Inductive Outcome :=
| Returned (srv : Server) (acts : list WsAction)
| Uncaught (exception : string) (acts : list WsAction).

(** [if (!sessions.has(key)) sessions.set(key, new DocumentSession(key, producer));
     const session = sessions.get(key)!] *)
Definition resolve (key : string) (srv : Server) : Server * nat :=
  match sessions srv !! key with
  | Some ref => (srv, ref)
  | None =>
      let ref := length (objects srv) in
      (mkServer (<[key := ref]> (sessions srv))
                (objects srv ++ [(key, new_DocumentSession key)])
                (sockets srv),
       ref)
  end.

Definition update_object (ref : nat) (o : DocumentSession) (srv : Server)
  : Server :=
  mkServer (sessions srv)
           (alter (fun ko => (fst ko, o)) ref (objects srv))
           (sockets srv).

(** [wss.on('connection', async (ws, req) => ...)].  The handler awaits the
    three Redis reads and [addUser]; the reads are taken from the store as
    it is when the handshake arrives, and the block between them and
    [addUser], the one that touches [sessions], runs without an [await].
    An object reference read from [sessions] always holds an object; the
    branch for a dangling one is never taken in a reachable state. *)
Definition on_connection (ws : nat) (req : Request) (redis : Redis)
  (srv : Server) : Outcome :=
  if falsy (q_docId req) || falsy (q_userId req) || falsy (q_tabId req)
  then Returned srv [Close ws None]
  else
    let docId := default "" (q_docId req) in
    let tabId := default "" (q_tabId req) in
    let userId := default "" (q_userId req) in
    match access_gate redis docId userId with
    | Denied =>
        Returned srv [Send ws (JSON_stringify access_denied); Close ws None]
    | Granted finalRole =>
        let '(srv1, ref) := resolve (sessionKey docId tabId) srv in
        match objects srv1 !! ref with
        | Some (_, session) =>
            let '(session', connectionId, acts) :=
              addUser ws userId (js_or finalRole "viewer") session in
            let srv2 := update_object ref session' srv1 in
            Returned (mkServer (sessions srv2) (objects srv2)
                               (<[ws := (ref, connectionId)]> (sockets srv2)))
                     acts
        | None => Uncaught "TypeError" []
        end
    end.

(** [ws.on('message', (message) => { const data = JSON.parse(message.toString());
     session.handleEdit(connectionId, data); })] *)
Definition on_message (ws : nat) (frame : string) (srv : Server) : Outcome :=
  match sockets srv !! ws with
  | None => Returned srv []
  | Some (ref, connectionId) =>
      match JSON_parse frame with
      | None => Uncaught "SyntaxError" []
      | Some data =>
          match objects srv !! ref with
          | Some (_, session) =>
              let '(session', acts) := handleEdit connectionId data session in
              Returned (update_object ref session' srv) acts
          | None => Uncaught "TypeError" []
          end
      end
  end.

(** [ws.on('close', () => { session.removeUser(connectionId); })] *)
Definition on_close (ws : nat) (srv : Server) : Outcome :=
  match sockets srv !! ws with
  | None => Returned srv []
  | Some (ref, connectionId) =>
      match objects srv !! ref with
      | Some (_, session) =>
          let '(session', acts) := removeUser connectionId session in
          let srv1 := update_object ref session' srv in
          Returned (mkServer (sessions srv1) (objects srv1)
                             (delete ws (sockets srv1)))
                   acts
      | None => Uncaught "TypeError" []
      end
  end.

(** A timer of a session fires: it runs on that session object. *)
Definition on_timer (ref : nat) (srv : Server) : Outcome :=
  match objects srv !! ref with
  | Some (_, session) =>
      let '(session', acts) := onTimer session in
      Returned (update_object ref session' srv) acts
  | None => Returned srv []
  end.

Inductive Event :=
| EConnection (ws : nat) (req : Request) (redis : Redis)
| EMessage (ws : nat) (frame : string)
| EClose (ws : nat)
| ETimer (ref : nat).

Definition handle (e : Event) (srv : Server) : Outcome :=
  match e with
  | EConnection ws req redis => on_connection ws req redis srv
  | EMessage ws frame => on_message ws frame srv
  | EClose ws => on_close ws srv
  | ETimer ref => on_timer ref srv
  end.

(** The event loop: events are handled one at a time while the process
    lives; [None] is a process ended by an uncaught exception. *)
Fixpoint run (es : list Event) (srv : Server) : option Server :=
  match es with
  | [] => Some srv
  | e :: es =>
      match handle e srv with
      | Returned srv' _ => run es srv'
      | Uncaught _ _ => None
      end
  end.

Definition reachable (srv : Server) : Prop :=
  exists es, run es initial_server = Some srv.

(** What a handler has sent and closed by the time it returns or
    throws. *)
Definition actions_of (o : Outcome) : list WsAction :=
  match o with
  | Returned _ acts => acts
  | Uncaught _ acts => acts
  end.

(** The key a session object was constructed with. *)
Definition key_of (srv : Server) (ref : nat) : option string :=
  fst <$> objects srv !! ref.

(** The registry and the objects agree: a key maps to an object
    constructed with that key, every object constructed is the one its key
    maps to, and the listeners of a socket hold an object. *)
Definition registry_inv (srv : Server) : Prop :=
  (forall key ref, sessions srv !! key = Some ref -> key_of srv ref = Some key)
  /\ (forall key ref, key_of srv ref = Some key -> sessions srv !! key = Some ref)
  /\ (forall ws ref cid, sockets srv !! ws = Some (ref, cid) ->
        is_Some (key_of srv ref)).

End Server.

(** A small [DocumentSession] that only keeps the presence set, to run the
    gateway on concrete traces: the users connected, by connection id. *)
#[global] Instance Presence : DocumentSessionClass := {|
  DocumentSession := list (nat * string * string);
  ConnectionId := nat;
  new_DocumentSession := fun _ => [];
  addUser := fun ws user r s => (s ++ [(ws, user, r)], ws, []);
  handleEdit := fun _ _ s => (s, []);
  removeUser := fun c s => (List.filter (fun x => negb (fst (fst x) =? c)) s, []);
  onTimer := fun s => (s, [])
|}.

(** The store and the handshakes of the traces below: document d1 is
    owned by alice, bob is an editor, link sharing is off. *)
Definition demo_redis : Redis :=
  mkRedis {[ "d1" := "alice" ]}
          {[ "d1" := {[ "alice" := "owner"; "bob" := "editor" ]} ]}
          {[ "d1" := {[ "link_access" := "none" ]} ]}.

Definition handshake (docId tabId userId : string) : Request :=
  mkRequest (Some docId) (Some tabId) (Some userId).

Definition demo_trace : list Event :=
  [EConnection 1 (handshake "d1" "t1" "alice") demo_redis;
   EConnection 2 (handshake "d1" "t1" "bob") demo_redis;
   EConnection 3 (handshake "d1" "t2" "bob") demo_redis;
   EClose 1; EClose 2; ETimer 0].

Definition demo_server : @Server Presence :=
  default initial_server (run demo_trace initial_server).

(** The server once alice has connected to tab t1 of d1 on socket 1. *)
Definition connected_server : @Server Presence :=
  default initial_server
    (run [EConnection 1 (handshake "d1" "t1" "alice") demo_redis]
         initial_server).

End Gateway.

(** ** The REST endpoints of server.ts *)

Module Rest.
Import Json Gateway.

(** The Redis keys the endpoints use besides those of the handshake:
    [user_docs:<userId>] (a set), [doc_tabs:<docId>] (a list),
    [user:auth:<email>] and [reset_token:<token>] (strings).  The key
    families have different prefixes, so each is a map of its own. *)
Record Store := mkStore {
  docs : Redis;
  user_docs : gmap string (gset string);
  doc_tabs : gmap string (list string);
  user_auth : gmap string string;
  reset_token : gmap string string
}.

Definition empty_store : Store := mkStore (mkRedis ∅ ∅ ∅) ∅ ∅ ∅ ∅.

(** [HSET key field value], [HDEL key field] (a hash left empty is
    removed), [HGETALL key], [SADD], [SMEMBERS], [RPUSH], [LRANGE key 0 -1]. *)
Definition redis_hset (m : gmap string (gmap string string))
  (key field value : string) : gmap string (gmap string string) :=
  <[key := <[field := value]> (default ∅ (m !! key))]> m.

Definition redis_hdel (m : gmap string (gmap string string))
  (key field : string) : gmap string (gmap string string) :=
  match m !! key with
  | Some h =>
      if decide (delete field h = ∅) then delete key m
      else <[key := delete field h]> m
  | None => m
  end.

Definition redis_hgetall (m : gmap string (gmap string string))
  (key : string) : gmap string string :=
  default ∅ (m !! key).

Definition redis_sadd (m : gmap string (gset string)) (key member : string)
  : gmap string (gset string) :=
  <[key := {[member]} ∪ default ∅ (m !! key)]> m.

Definition redis_smembers (m : gmap string (gset string)) (key : string)
  : gset string :=
  default ∅ (m !! key).

Definition redis_rpush (m : gmap string (list string)) (key value : string)
  : gmap string (list string) :=
  <[key := default [] (m !! key) ++ [value]]> m.

Definition redis_lrange (m : gmap string (list string)) (key : string)
  : list string :=
  default [] (m !! key).

(** What [res.status(code).json(body)] sends; the bodies are
    [{ error }], [{ success: true }], [{ success: true, userId }],
    [{ success: true, message }], the array of [smembers],
    [{ acl, linkAccess }] and the array of tab names. *)
Inductive Body :=
| BError (error : string)
| BSuccess
| BSuccessUser (userId : string)
| BSuccessMessage (message : string)
| BDocs (ids : gset string)
| BUsers (acl : gmap string string) (linkAccess : string)
| BTabs (tabs : list string).

Record Response := mkResponse {
  status : nat;
  body : Body
}.

Definition ok (b : Body) : Response := mkResponse 200 b.

Definition fail (code : nat) (error : string) : Response :=
  mkResponse code (BError error).

(** The three regular expressions of the password check, each a test
    that some character of the string is in a class: the upper-case
    letters A-Z, the lower-case letters a-z, and the special characters
    listed in [specials]. *)
Definition is_upper (c : ascii) : bool := between 65 90 c.

Definition is_lower (c : ascii) : bool := between 97 122 c.

Definition specials : text :=
  txt "!@#$%^&*(),.?" ++ [dquote] ++ txt ":{}|<>".

Definition is_special (c : ascii) : bool :=
  existsb (Ascii.eqb c) specials.

Definition regex_test (class : ascii -> bool) (s : string) : bool :=
  existsb class (list_ascii_of_string s).

(** [!hasUpperCase || !hasLowerCase || !hasSpecial], negated. *)
Definition strong_password (password : string) : bool :=
  regex_test is_upper password
  && regex_test is_lower password
  && regex_test is_special password.

(** [s.split(sep)] for a one-character separator. *)
Fixpoint split_on (sep : ascii) (s : text) : list text :=
  match s with
  | [] => [[]]
  | c :: r =>
      if Ascii.eqb c sep then [] :: split_on sep r
      else
        match split_on sep r with
        | h :: t => (c :: h) :: t
        | [] => [[c]]
        end
  end.

Definition strictProviders : list string :=
  ["gmail.com"; "yahoo.com"; "hotmail.com"; "outlook.com"; "icloud.com"].

(** [strictProviders.includes(email.split('@')[1])] *)
Definition useStrict (email : string) : bool :=
  match split_on "@" (list_ascii_of_string email) !! 1 with
  | Some domain =>
      existsb (String.eqb (string_of_list_ascii domain)) strictProviders
  | None => false
  end.

(** What the call of [deep-email-validator] comes to: a valid address, an
    invalid one with its [reason] and the [source] of the typo validator,
    or an exception. *)
Inductive Validation :=
| Valid
| Invalid (reason : string) (typoSource : option string)
| ValidationThrows.

Definition invalid_message (reason : string) (typoSource : option string)
  : string :=
  if String.eqb reason "typo"
  then "Did you mean " +:+ default "undefined" typoSource +:+ "?"
  else if String.eqb reason "mx" then "This email domain does not exist."
  else if String.eqb reason "disposable"
  then "Temporary emails are not allowed."
  else if String.eqb reason "smtp" then "This email address does not exist."
  else "Invalid email address.".

(** The libraries around the endpoints: the validator, as a function of
    the address and of [validateSMTP]; [bcrypt.hash(password, 10)], as a
    function of the password and of the salt it draws; and
    [bcrypt.compare]. *)
Class Libraries := {
  validate : string -> bool -> Validation;
  bcrypt_hash : string -> string -> string;
  bcrypt_compare : string -> string -> bool
}.

(** What is known of bcrypt: a password matches its own hash, and a hash
    is never the empty string (it is 60 characters long). *)
Definition bcrypt_sound `{Libraries} : Prop :=
  (forall password salt,
     bcrypt_compare password (bcrypt_hash password salt) = true)
  /\ (forall password salt, bcrypt_hash password salt <> "").

Section Endpoints.
Context `{L : Libraries}.

Definition set_auth (email hash : string) (st : Store) : Store :=
  mkStore (docs st) (user_docs st) (doc_tabs st)
          (<[email := hash]> (user_auth st)) (reset_token st).

(** [app.post('/api/signup', ...)]; [salt] is the salt bcrypt draws. *)
Definition signup (salt : string) (email password : option string)
  (st : Store) : Store * Response :=
  if falsy email || falsy password
  then (st, fail 400 "Email and Password required")
  else
    let e := default "" email in
    let p := default "" password in
    if negb (strong_password p)
    then (st, fail 400 "Password must contain Upper, Lower, and Special characters.")
    else
      match validate e (useStrict e) with
      | Invalid reason typoSource =>
          (st, fail 400 (invalid_message reason typoSource))
      | Valid | ValidationThrows =>
          if negb (falsy (user_auth st !! e))
          then (st, fail 409 "User already exists.")
          else (set_auth e (bcrypt_hash p salt) st, ok (BSuccessUser e))
      end.

(** [app.post('/api/login', ...)] *)
Definition login (email password : option string) (st : Store)
  : Store * Response :=
  if falsy email || falsy password
  then (st, fail 400 "Missing credentials")
  else
    let e := default "" email in
    let p := default "" password in
    if falsy (user_auth st !! e) then (st, fail 401 "User not found.")
    else if negb (bcrypt_compare p (default "" (user_auth st !! e)))
    then (st, fail 401 "Incorrect password.")
    else (st, ok (BSuccessUser e)).

(** [app.post('/api/forgot-password', ...)]; [token] is the uuid drawn,
    [mailed] tells whether [sendMail] succeeded.  The token expires in the
    store after 900 seconds, which shows as the key being gone. *)
Definition forgot_password (token : string) (mailed : bool)
  (email : option string) (st : Store) : Store * Response :=
  if falsy email then (st, fail 400 "Email required")
  else
    let e := default "" email in
    if falsy (user_auth st !! e)
    then (st, ok (BSuccessMessage "If account exists, email sent."))
    else
      let st' := mkStore (docs st) (user_docs st) (doc_tabs st) (user_auth st)
                         (<[token := e]> (reset_token st)) in
      if mailed then (st', ok (BSuccessMessage "Email sent!"))
      else (st', fail 500 "Failed to send email. Check server logs.").

(** [app.post('/api/reset-password', ...)] *)
Definition reset_password (salt : string) (token newPassword : option string)
  (st : Store) : Store * Response :=
  if falsy token || falsy newPassword then (st, fail 400 "Missing data")
  else
    let t := default "" token in
    let p := default "" newPassword in
    if falsy (reset_token st !! t)
    then (st, fail 400 "Invalid or expired token.")
    else
      let e := default "" (reset_token st !! t) in
      if negb (strong_password p)
      then (st, fail 400 "Weak password. Use Upper, Lower, and Special chars.")
      else
        (mkStore (docs st) (user_docs st) (doc_tabs st)
                 (<[e := bcrypt_hash p salt]> (user_auth st))
                 (delete t (reset_token st)),
         ok (BSuccessMessage "Password updated successfully!")).

End Endpoints.

(** A field of a request body that a handler passes on without checking
    it: a string, [null], or anything else (absent, a number, a boolean,
    an array, an object).  A string stands for the field that holds it. *)
Inductive BodyField :=
| FString (s : string)
| FNull
| FOther.

Coercion FString : string >-> BodyField.

(** [isOwner(docId, userId)]: [owner === userId], where [owner] is the
    string [redis.get] returns, or [null] when the key is missing. *)
Definition isOwner (st : Store) (docId : string) (userId : BodyField) : bool :=
  match userId with
  | FString u => strict_eq u (redis_get (doc_owner (docs st)) docId)
  | FNull =>
      match redis_get (doc_owner (docs st)) docId with
      | None => true
      | Some _ => false
      end
  | FOther => false
  end.

Definition set_docs (r : Redis) (st : Store) : Store :=
  mkStore r (user_docs st) (doc_tabs st) (user_auth st) (reset_token st).

(** [app.get('/api/docs/:userId', ...)] *)
Definition list_docs (userId : string) (st : Store) : Store * Response :=
  (st, ok (BDocs (redis_smembers (user_docs st) userId))).

(** [app.post('/api/docs', ...)] *)
Definition create_doc (userId docId : string) (st : Store)
  : Store * Response :=
  (mkStore
     (mkRedis (<[docId := userId]> (doc_owner (docs st)))
              (redis_hset (doc_acl (docs st)) docId userId "owner")
              (redis_hset (doc_settings (docs st)) docId "link_access" "none"))
     (redis_sadd (user_docs st) userId docId)
     (redis_rpush (doc_tabs st) docId "Sheet 1")
     (user_auth st) (reset_token st),
   ok BSuccess).

(** [app.get('/api/doc/:docId/users', ...)] *)
Definition list_users (docId : string) (st : Store) : Store * Response :=
  (st, ok (BUsers (redis_hgetall (doc_acl (docs st)) docId)
                  (js_or (redis_hget (doc_settings (docs st)) docId
                                     "link_access") "none"))).

(** [app.post('/api/doc/:docId/user', ...)] *)
Definition add_user (docId : string) (ownerId : BodyField)
  (email role : string) (st : Store) : Store * Response :=
  if negb (isOwner st docId ownerId) then (st, fail 403 "Not owner")
  else
    (mkStore
       (mkRedis (doc_owner (docs st))
                (redis_hset (doc_acl (docs st)) docId email role)
                (doc_settings (docs st)))
       (redis_sadd (user_docs st) email docId)
       (doc_tabs st) (user_auth st) (reset_token st),
     ok BSuccess).

(** [app.delete('/api/doc/:docId/user', ...)] *)
Definition remove_user (docId : string) (ownerId : BodyField)
  (email : string) (st : Store) : Store * Response :=
  if negb (isOwner st docId ownerId) then (st, fail 403 "Not owner")
  else
    (set_docs (mkRedis (doc_owner (docs st))
                       (redis_hdel (doc_acl (docs st)) docId email)
                       (doc_settings (docs st))) st,
     ok BSuccess).

(** [app.post('/api/doc/:docId/link-settings', ...)] *)
Definition link_settings (docId : string) (ownerId : BodyField)
  (linkAccess : string) (st : Store) : Store * Response :=
  if negb (isOwner st docId ownerId) then (st, fail 403 "Not owner")
  else
    (set_docs (mkRedis (doc_owner (docs st)) (doc_acl (docs st))
                       (redis_hset (doc_settings (docs st)) docId
                                   "link_access" linkAccess)) st,
     ok BSuccess).

(** [app.get('/api/doc/:docId/tabs', ...)] *)
Definition get_tabs (docId : string) (st : Store) : Store * Response :=
  match redis_lrange (doc_tabs st) docId with
  | [] =>
      (mkStore (docs st) (user_docs st)
               (redis_rpush (doc_tabs st) docId "Sheet 1")
               (user_auth st) (reset_token st),
       ok (BTabs ["Sheet 1"]))
  | tabs => (st, ok (BTabs tabs))
  end.

(** [app.post('/api/doc/:docId/tabs', ...)] *)
Definition add_tab (docId tabName : string) (st : Store) : Store * Response :=
  (mkStore (docs st) (user_docs st)
           (redis_rpush (doc_tabs st) docId tabName)
           (user_auth st) (reset_token st),
   ok BSuccess).

(** A stand-in for the libraries, to run the endpoints on concrete
    requests: every address is valid, and a hash is the password behind a
    marker. *)
#[global] Instance Toy : Libraries := {|
  validate := fun _ _ => Valid;
  bcrypt_hash := fun password _ => "$2a$10$" +:+ password;
  bcrypt_compare := fun password hash => String.eqb hash ("$2a$10$" +:+ password)
|}.

(** The libraries when the validator throws. *)
Definition Throwing : Libraries := {|
  validate := fun _ _ => ValidationThrows;
  bcrypt_hash := @bcrypt_hash Toy;
  bcrypt_compare := @bcrypt_compare Toy
|}.

(** A store with one account, and one where alice also owns document d1
    and has shared it with bob as an editor. *)
Definition account_store : Store :=
  fst (signup "salt" (Some "alice@example.org") (Some "aA!") empty_store).

Definition shared_store : Store :=
  fst (add_user "d1" "alice@example.org" "bob@example.org" "editor"
         (fst (create_doc "alice@example.org" "d1" account_store))).

Definition no_colon (s : string) : Prop :=
  ":"%char ∉ list_ascii_of_string s.

(** The server once alice has connected to the tab named t::1 of d1 on
    socket 1. *)
Definition nested_server : @Server Presence :=
  default initial_server
    (run [EConnection 1 (handshake "d1" "t::1" "alice") demo_redis]
         initial_server).

(** The routes of the REST API, as requests with their parameters (and,
    where the handler draws a salt or a token or sends a mail, with what
    was drawn and whether the mail went out). *)
Inductive ApiCall :=
| Signup (salt : string) (email password : option string)
| Login (email password : option string)
| ForgotPassword (token : string) (mailed : bool) (email : option string)
| ResetPassword (salt : string) (token newPassword : option string)
| ListDocs (userId : string)
| CreateDoc (userId docId : string)
| ListUsers (docId : string)
| AddUser (docId : string) (ownerId : BodyField) (email role : string)
| RemoveUser (docId : string) (ownerId : BodyField) (email : string)
| LinkSettings (docId : string) (ownerId : BodyField) (linkAccess : string)
| GetTabs (docId : string)
| AddTab (docId tabName : string).

(** What happens to the store: a request is served, or the 900 seconds
    of a reset token run out. *)
Inductive ApiEvent :=
| Served (c : ApiCall)
| Expired (token : string).

(** A sharing request for document [d] that carries [ownerId: null]. *)
Definition null_owner_write (d : string) (e : ApiEvent) : Prop :=
  match e with
  | Served (AddUser d' FNull _ _) | Served (LinkSettings d' FNull _) => d' = d
  | _ => False
  end.

Section Api.
Context `{L : Libraries}.

Definition api (c : ApiCall) (st : Store) : Store * Response :=
  match c with
  | Signup salt email password => signup salt email password st
  | Login email password => login email password st
  | ForgotPassword token mailed email => forgot_password token mailed email st
  | ResetPassword salt token newPassword =>
      reset_password salt token newPassword st
  | ListDocs userId => list_docs userId st
  | CreateDoc userId docId => create_doc userId docId st
  | ListUsers docId => list_users docId st
  | AddUser docId ownerId email role => add_user docId ownerId email role st
  | RemoveUser docId ownerId email => remove_user docId ownerId email st
  | LinkSettings docId ownerId linkAccess =>
      link_settings docId ownerId linkAccess st
  | GetTabs docId => get_tabs docId st
  | AddTab docId tabName => add_tab docId tabName st
  end.

Definition expire (token : string) (st : Store) : Store :=
  mkStore (docs st) (user_docs st) (doc_tabs st) (user_auth st)
          (delete token (reset_token st)).

Definition api_step (e : ApiEvent) (st : Store) : Store :=
  match e with
  | Served c => fst (api c st)
  | Expired token => expire token st
  end.

Definition api_run (es : list ApiEvent) (st : Store) : Store :=
  fold_left (fun s e => api_step e s) es st.

(** The stores the API can be in, starting from an empty Redis. *)
Definition api_reachable (st : Store) : Prop :=
  exists es, api_run es empty_store = st.

(** What the endpoints keep true of the store: a reset token names an
    address with credentials; a document that has an owner has a link
    setting, a tab, and is in the list of its owner. *)
Definition store_inv (st : Store) : Prop :=
  (forall t e, reset_token st !! t = Some e ->
     e <> "" /\ is_Some (user_auth st !! e))
  /\ (forall d o, doc_owner (docs st) !! d = Some o ->
        is_Some (redis_hget (doc_settings (docs st)) d "link_access")
        /\ redis_lrange (doc_tabs st) d <> []
        /\ d ∈ redis_smembers (user_docs st) o).

(** ACL entries and settings belong to documents that have an owner, or
    to the documents of [P]. *)
Definition shared_inv (P : string -> Prop) (st : Store) : Prop :=
  (forall d u r, redis_hget (doc_acl (docs st)) d u = Some r ->
     is_Some (doc_owner (docs st) !! d) \/ P d)
  /\ (forall d f v, redis_hget (doc_settings (docs st)) d f = Some v ->
        is_Some (doc_owner (docs st) !! d) \/ P d).

End Api.

(** A store with a reset token issued for the account of alice. *)
Definition token_store : Store :=
  fst (forgot_password "t1" true (Some "alice@example.org") shared_store).

(** The requests that lead to it from an empty Redis. *)
Definition token_trace : list ApiEvent :=
  [Served (Signup "salt" (Some "alice@example.org") (Some "aA!"));
   Served (CreateDoc "alice@example.org" "d1");
   Served (AddUser "d1" "alice@example.org" "bob@example.org" "editor");
   Served (ForgotPassword "t1" true (Some "alice@example.org"))].

End Rest.

Import OT.

(** * Properties of the OT engine *)

(** ** The order on origin ids *)




Lemma leb_flip (a b : string) :
  a <> b -> String.leb b a = negb (String.leb a b).
Proof.
  intros N.
  destruct (String.leb a b) eqn:E1, (String.leb b a) eqn:E2; simpl; auto.
  - exfalso. apply N. apply String.leb_antisym; assumption.
  - destruct (String.leb_total a b); congruence.
Qed.

(** ** What a transformation keeps *)

Lemma transform1_kind (op prior : Operation) :
  op_kind (transform1 op prior) = op_kind op.
Proof.
  unfold transform1.
  destruct (op_kind op) eqn:K, (op_kind prior); repeat case_match; simpl; auto.
Qed.



Lemma transform_snoc (op x : Operation) (hs : list Operation) :
  transform op (hs ++ [x]) = transform1 (transform op hs) x.
Proof. unfold transform. rewrite fold_left_app. reflexivity. Qed.


(** ** Inserts against inserts *)

Lemma transform1_insert (x y : Operation) :
  is_insert x -> is_insert y ->
  transform1 x y =
    if prior_first y x
    then with_position x (op_position x + length (op_content y))
    else x.
Proof. unfold is_insert, transform1. intros -> ->. reflexivity. Qed.

(** Boolean comparisons on positions, read as propositions for [lia]. *)
Ltac props :=
  rewrite ?andb_true_r, ?andb_false_r, ?orb_false_r, ?orb_true_r in *;
  repeat match goal with
  | H : _ = false |- _ => apply not_true_iff_false in H
  end;
  rewrite ?orb_true_iff, ?andb_true_iff, ?Nat.ltb_lt, ?Nat.eqb_eq,
          ?Nat.leb_le in *.


(** ** Inserting into the text *)

Lemma insert_at_length (p : nat) (u c : text) :
  length (insert_at p u c) = length c + length u.
Proof.
  unfold insert_at. rewrite !length_app, length_take, length_drop. lia.
Qed.

Lemma insert_at_app (c1 c2 u : text) (p : nat) :
  length c1 = p -> insert_at p u (c1 ++ c2) = c1 ++ u ++ c2.
Proof.
  intros <-. unfold insert_at.
  rewrite take_app_length, drop_app_length. reflexivity.
Qed.

Lemma split3 (c : text) (p q : nat) :
  p <= q -> q <= length c ->
  exists c1 c2 c3,
    c = c1 ++ c2 ++ c3 /\ length c1 = p /\ length c2 = q - p.
Proof.
  intros Hpq Hq.
  exists (take p c), (take (q - p) (drop p c)), (drop (q - p) (drop p c)).
  rewrite (take_drop (q - p)), take_drop, !length_take, length_drop.
  repeat split; lia.
Qed.



(** ** Deletes against deletes *)

Lemma remove_range_length (p l : nat) (c : text) :
  p + l <= length c -> length (remove_range p l c) = length c - l.
Proof.
  intros L. unfold remove_range.
  rewrite length_app, length_take, length_drop. lia.
Qed.

Lemma remove_nothing (p : nat) (c : text) : remove_range p 0 c = c.
Proof. unfold remove_range. rewrite Nat.add_0_r. apply take_drop. Qed.

Lemma transform1_delete (op prior : Operation) :
  op_kind op = KDelete -> op_kind prior = KDelete ->
  transform1 op prior =
    with_range op
      (after_delete (op_position prior) (op_length prior) (op_position op))
      (after_delete (op_position prior) (op_length prior)
                    (op_position op + op_length op)
       - after_delete (op_position prior) (op_length prior) (op_position op)).
Proof. unfold transform1. intros -> ->. reflexivity. Qed.

Ltac no_if t :=
  lazymatch t with
  | context [if _ then _ else _] => fail
  | _ => idtac
  end.

(** Case analysis on the comparisons of positions, innermost first,
    dropping the cases that cannot be. *)
Ltac prune :=
  repeat match goal with
  | |- context [?a <=? ?b] =>
      no_if a; no_if b;
      destruct (Nat.leb_spec a b); cbv beta iota; try (exfalso; lia)
  | |- context [?a <? ?b] =>
      no_if a; no_if b;
      destruct (Nat.ltb_spec a b); cbv beta iota; try (exfalso; lia)
  end.




Lemma lookup_remove_range (p l i : nat) (c : text) :
  p <= length c ->
  remove_range p l c !! i = c !! (if i <? p then i else i + l).
Proof.
  intros L. unfold remove_range.
  destruct (Nat.ltb_spec i p) as [H|H].
  - rewrite lookup_app_l by (rewrite length_take; lia).
    apply lookup_take_lt. exact H.
  - rewrite lookup_app_r by (rewrite length_take; lia).
    rewrite length_take, lookup_drop. f_equal. lia.
Qed.

(** ** Any operation against any other *)



Lemma apply_op_length (op : Operation) (c : text) :
  in_range op c = true ->
  length (apply_op op c) =
    match op_kind op with
    | KInsert => length c + length (op_content op)
    | KDelete => length c - op_length op
    | KFormatRange => length c
    end.
Proof.
  unfold in_range, apply_op. destruct (op_kind op); intros R.
  - apply insert_at_length.
  - apply remove_range_length. apply Nat.leb_le. exact R.
  - reflexivity.
Qed.

(** An operation in range stays in range when it is transformed against an
    operation that is applied: it is never rejected for its position. *)
Lemma transform1_in_range (x y : Operation) (c : text) :
  in_range x c = true -> in_range y c = true ->
  in_range (transform1 x y) (apply_op y c) = true.
Proof.
  intros Rx Ry. pose proof (apply_op_length y c Ry) as L.
  unfold in_range in *. rewrite transform1_kind.
  unfold transform1, after_delete, with_position, with_range.
  destruct (op_kind x), (op_kind y); rewrite L; simpl;
    apply Nat.leb_le in Rx, Ry; apply Nat.leb_le;
    try destruct (prior_first y x); prune; simpl; lia.
Qed.

(** Two concurrent deletes give the same text in both commit orders. *)
Lemma delete_tp1 (a b : Operation) (c : text) :
  op_kind a = KDelete -> op_kind b = KDelete ->
  in_range a c = true -> in_range b c = true ->
  apply_op (transform1 b a) (apply_op a c)
  = apply_op (transform1 a b) (apply_op b c).
Proof.
  intros Ka Kb Ra Rb.
  pose proof (transform1_in_range b a c Rb Ra) as Rb'.
  pose proof (transform1_in_range a b c Ra Rb) as Ra'.
  pose proof (apply_op_length a c Ra) as La.
  pose proof (apply_op_length b c Rb) as Lb.
  unfold in_range in *. rewrite !transform1_kind in *.
  rewrite Ka in *. rewrite Kb in *.
  unfold apply_op in *. rewrite !transform1_kind, Ka, Kb in *.
  apply Nat.leb_le in Ra, Rb, Ra', Rb'.
  apply list_eq. intros i.
  rewrite !lookup_remove_range by lia.
  rewrite (transform1_delete b a Kb Ka), (transform1_delete a b Ka Kb) in *.
  unfold with_range, after_delete in *; simpl in *.
  clear Ra' Rb' La Lb.
  f_equal. prune; lia.
Qed.


(** ** Views: absorbing concurrent operations *)

Lemma absorb_sound (c0 : text) (cs : View) (op : Operation) :
  sound c0 cs -> in_range op c0 = true -> sound c0 (absorb cs op).
Proof.
  intros S Rop x Rx. simpl. rewrite transform_snoc.
  apply transform1_in_range; apply S; assumption.
Qed.


(** ** From views to document states *)

Lemma commit_view (c0 : text) (h0 : list Operation) (st : DocumentState)
  (cs : View) (op : Operation) :
  history st = h0 ++ snd cs -> content st = fst cs ->
  version st = length h0 + length (snd cs) ->
  sound c0 cs ->
  op_baseVersion op = length h0 -> in_range op c0 = true ->
  exists st',
    commit op st = inr st'
    /\ history st' = h0 ++ snd (absorb cs op)
    /\ content st' = fst (absorb cs op)
    /\ version st' = length h0 + length (snd (absorb cs op)).
Proof.
  intros Hh Hc Hv S Hb Hp.
  unfold commit, transformed.
  rewrite Hb, Hv.
  replace (length h0 + length (snd cs) <? length h0) with false
    by (symmetry; apply Nat.ltb_ge; lia).
  rewrite Hh, drop_app_length, Hc, (S op Hp).
  eexists. split; [reflexivity|]. simpl.
  rewrite length_app, app_assoc. simpl. repeat split. lia.
Qed.

Lemma apply_all_view (c0 : text) (h0 : list Operation) (ops : list Operation) :
  forall (st : DocumentState) (cs : View),
    history st = h0 ++ snd cs -> content st = fst cs ->
    version st = length h0 + length (snd cs) ->
    sound c0 cs ->
    Forall (fun op => op_baseVersion op = length h0
                      /\ in_range op c0 = true) ops ->
    content (apply_all ops st) = fst (absorb_all ops cs)
    /\ version (apply_all ops st) = version st + length ops
    /\ history (apply_all ops st) = h0 ++ snd (absorb_all ops cs).
Proof.
  induction ops as [|op ops IH]; intros st cs Hh Hc Hv S F.
  - simpl. repeat split; auto.
  - inversion F as [|? ? (Hb & Hp) F']; subst.
    destruct (commit_view c0 h0 st cs op Hh Hc Hv S Hb Hp)
      as (st' & C & Hh' & Hc' & Hv').
    change (apply_all (op :: ops) st)
      with (apply_all ops (commit_or_drop st op)).
    change (absorb_all (op :: ops) cs) with (absorb_all ops (absorb cs op)).
    unfold commit_or_drop. rewrite C.
    destruct (IH st' (absorb cs op) Hh' Hc' Hv') as (R1 & R2 & R3).
    + apply absorb_sound; assumption.
    + exact F'.
    + repeat split; try assumption.
      rewrite R2, Hv', Hv. simpl. rewrite length_app. simpl. lia.
Qed.

Lemma sound_start (c : text) : sound c (c, []).
Proof. intros x Hx. exact Hx. Qed.

(** Concurrent operations in range are all accepted, whatever their kinds
    and their order: the session sees what the view absorbs. *)
Lemma concurrent_all_view (st : DocumentState) (ops : list Operation) :
  well_formed st -> Forall (concurrent st) ops ->
  content (apply_all ops st) = fst (absorb_all ops (content st, []))
  /\ version (apply_all ops st) = version st + length ops.
Proof.
  intros W F.
  destruct (apply_all_view (content st) (history st) ops st
              (content st, [])) as (R1 & R2 & _); simpl; auto.
  - rewrite app_nil_r. reflexivity.
  - rewrite W. lia.
  - apply sound_start.
  - eapply Forall_impl; [exact F|]. intros op (A & B).
    rewrite W. auto.
Qed.

Lemma concurrent_insert_concurrent (st : DocumentState) (op : Operation) :
  concurrent_insert st op -> concurrent st op.
Proof.
  intros (K & B & L). split; [exact B|].
  unfold in_range. rewrite K. apply Nat.leb_le. exact L.
Qed.

Lemma concurrent_view (st : DocumentState) (ops : list Operation) :
  well_formed st -> Forall (concurrent_insert st) ops ->
  content (apply_all ops st) = fst (absorb_all ops (content st, []))
  /\ version (apply_all ops st) = version st + length ops.
Proof.
  intros W F. apply concurrent_all_view; [exact W|].
  eapply Forall_impl; [exact F|]. apply concurrent_insert_concurrent.
Qed.

Lemma insert_at_after (c u v : text) (p : nat) :
  p <= length c ->
  insert_at (p + length u) v (insert_at p u c) = insert_at p (u ++ v) c.
Proof.
  intros L.
  destruct (split3 c p p (le_n p) L) as (c1 & c2 & c3 & -> & L1 & L2).
  destruct c2; [simpl|simpl in L2; lia].
  rewrite !(insert_at_app c1 c3 _ p L1).
  replace (c1 ++ u ++ c3) with ((c1 ++ u) ++ c3)
    by (rewrite <- !app_assoc; reflexivity).
  rewrite (insert_at_app (c1 ++ u) c3 v) by (rewrite length_app; lia).
  rewrite <- !app_assoc. reflexivity.
Qed.

Lemma insert_at_before (c u v : text) (p : nat) :
  p <= length c ->
  insert_at p v (insert_at p u c) = insert_at p (v ++ u) c.
Proof.
  intros L.
  destruct (split3 c p p (le_n p) L) as (c1 & c2 & c3 & -> & L1 & L2).
  destruct c2; [simpl|simpl in L2; lia].
  rewrite !(insert_at_app c1 c3 _ p L1).
  rewrite (insert_at_app c1 (u ++ c3) v p L1).
  rewrite <- !app_assoc. reflexivity.
Qed.

(** ** What two operations need to commute *)


(** *** Inserts against inserts *)






(** *** Inserts against deletes *)











(** *** The order of commits does not matter to a third operation *)






(** *** Commuting on the text *)






(** ** Convergence of compatible operations *)














(** ** Two operations *)





(** ** Convergence *)


(** Whatever single range the delete is rewritten to once the insert is
    committed, it cannot produce the text of the other order. *)
Lemma no_delete_recovers_insert (d : Operation) :
  op_kind d = KDelete ->
  apply_op d (txt "abXcd") <> txt "aXd".
Proof.
  intros K. unfold apply_op, remove_range. rewrite K.
  destruct d as [k p c l v i s]; simpl.
  destruct p as [|[|[|[|[|p]]]]]; simpl; try discriminate;
    destruct l as [|[|[|[|[|l]]]]]; simpl; try discriminate;
    destruct l; discriminate.
Qed.

(** An insert at the end of a deleted range commutes with the delete,
    but not next to a third operation: it lands on the insert made at the
    start of the range, and the two are then ordered by origin when the
    delete is committed first and by position when it is committed
    last. *)
Lemma convergence_fails_around_delete :
  ~ conflict (ins 3 "Y" 0 "A") (del 1 2 0 "C")
  /\ ~ conflict (ins 1 "X" 0 "B") (del 1 2 0 "C")
  /\ ~ conflict (ins 1 "X" 0 "B") (ins 3 "Y" 0 "A")
  /\ content (apply_all [del 1 2 0 "C"; ins 1 "X" 0 "B"; ins 3 "Y" 0 "A"]
                        (mkState (txt "abcd") 0 []))
     = txt "aYXd"
  /\ content (apply_all [ins 1 "X" 0 "B"; ins 3 "Y" 0 "A"; del 1 2 0 "C"]
                        (mkState (txt "abcd") 0 []))
     = txt "aXYd".
Proof.
  unfold conflict, swallowed, is_insert. simpl.
  repeat split; try (vm_compute; reflexivity);
    intros [H|[H|H]]; decompose [and] H; try discriminate; lia.
Qed.

(** Two inserts of one connection at one position, sent one after the
    other, have nothing but their arrival order to tell them apart. *)
Example same_origin_tie_follows_arrival :
  content (apply_all [mkOp KInsert 0 (txt "a") 0 0 "c1" 1;
                      mkOp KInsert 0 (txt "b") 0 0 "c1" 2] initial_state)
    = txt "ab"
  /\ content (apply_all [mkOp KInsert 0 (txt "b") 0 0 "c1" 2;
                         mkOp KInsert 0 (txt "a") 0 0 "c1" 1] initial_state)
    = txt "ba".
Proof. vm_compute. split; reflexivity. Qed.



(** C2: from a well-formed state at version 5 with content "hello", the
    inserts of client A (position 5, " world") and client B (position 0,
    "Hi, "), both based on version 5, give content "Hi, hello world" and
    version 7 in either commit order. *)
Theorem example_scenario (st : DocumentState) (idA idB : string) :
  well_formed st ->
  version st = 5 ->
  content st = txt "hello" ->
  content (apply_all [ins 5 " world" 5 idA; ins 0 "Hi, " 5 idB] st)
    = txt "Hi, hello world"
  /\ version (apply_all [ins 5 " world" 5 idA; ins 0 "Hi, " 5 idB] st) = 7
  /\ content (apply_all [ins 0 "Hi, " 5 idB; ins 5 " world" 5 idA] st)
    = txt "Hi, hello world"
  /\ version (apply_all [ins 0 "Hi, " 5 idB; ins 5 " world" 5 idA] st) = 7.
Proof.
  intros W V C.
  assert (Fa : concurrent_insert st (ins 5 " world" 5 idA))
    by (repeat split; simpl; [congruence | rewrite C; simpl; lia]).
  assert (Fb : concurrent_insert st (ins 0 "Hi, " 5 idB))
    by (repeat split; simpl; [congruence | lia]).
  assert (Fab : Forall (concurrent_insert st)
                  [ins 5 " world" 5 idA; ins 0 "Hi, " 5 idB])
    by (repeat apply List.Forall_cons; auto).
  assert (Fba : Forall (concurrent_insert st)
                  [ins 0 "Hi, " 5 idB; ins 5 " world" 5 idA])
    by (repeat apply List.Forall_cons; auto).
  destruct (concurrent_view st _ W Fab) as [C1 V1].
  destruct (concurrent_view st _ W Fba) as [C2 V2].
  rewrite C1, C2, V1, V2, C, V. repeat split.
Qed.

Lemma example_scenario_witness :
  content (apply_all [ins 5 " world" 5 "A"; ins 0 "Hi, " 5 "B"] hello_state)
    = txt "Hi, hello world"
  /\ version (apply_all [ins 5 " world" 5 "A"; ins 0 "Hi, " 5 "B"] hello_state) = 7
  /\ content (apply_all [ins 0 "Hi, " 5 "B"; ins 5 " world" 5 "A"] hello_state)
    = txt "Hi, hello world"
  /\ version (apply_all [ins 0 "Hi, " 5 "B"; ins 5 " world" 5 "A"] hello_state) = 7.
Proof.
  apply (example_scenario hello_state "A" "B"); reflexivity.
Defined.

(** ** The tie-break *)

Lemma prior_first_tie (a b : Operation) :
  op_position a = op_position b ->
  prior_first a b = String.leb (op_originId a) (op_originId b).
Proof.
  intros E. unfold prior_first. rewrite E, Nat.ltb_irrefl, Nat.eqb_refl.
  reflexivity.
Qed.

Lemma tie_view (c : text) (a b : Operation) :
  is_insert a -> is_insert b ->
  op_position a = op_position b -> op_position a <= length c ->
  op_originId a <> op_originId b ->
  fst (absorb_all [a; b] (c, []))
  = insert_at (op_position a)
              (op_content (lower a b) ++ op_content (upper a b)) c.
Proof.
  intros Ha Hb E L N. simpl. unfold transform; simpl.
  rewrite (transform1_insert b a Hb Ha), (prior_first_tie a b E).
  unfold lower, upper, apply_op.
  destruct (String.leb (op_originId a) (op_originId b)); simpl;
    rewrite Ha, Hb; simpl.
  - rewrite <- E. apply insert_at_after. exact L.
  - rewrite <- E. apply insert_at_before. exact L.
Qed.

Lemma lower_comm (a b : Operation) :
  op_originId a <> op_originId b -> lower b a = lower a b.
Proof. intros N. unfold lower. rewrite (leb_flip _ _ N). destruct (String.leb _ _); reflexivity. Qed.

Lemma upper_comm (a b : Operation) :
  op_originId a <> op_originId b -> upper b a = upper a b.
Proof. intros N. unfold upper. rewrite (leb_flip _ _ N). destruct (String.leb _ _); reflexivity. Qed.

(** C3: two concurrent inserts at the same position with different origin
    ids are ordered by the lexicographic comparison of the ids: [transform]
    shifts the one with the larger id behind the other and leaves the one
    with the smaller id in place, so in both arrival orders the text of the
    smaller id comes first in the final content. *)
Theorem tie_break_deterministic (st : DocumentState) (a b : Operation) :
  well_formed st ->
  concurrent_insert st a -> concurrent_insert st b ->
  op_position a = op_position b ->
  op_originId a <> op_originId b ->
  transform1 (upper a b) (lower a b)
    = with_position (upper a b)
        (op_position (upper a b) + length (op_content (lower a b)))
  /\ transform1 (lower a b) (upper a b) = lower a b
  /\ content (apply_all [a; b] st)
     = insert_at (op_position a)
         (op_content (lower a b) ++ op_content (upper a b)) (content st)
  /\ content (apply_all [b; a] st) = content (apply_all [a; b] st).
Proof.
  intros W Ca Cb E N.
  pose proof Ca as (Ha & Ba & La). pose proof Cb as (Hb & Bb & Lb).
  assert (Fab : Forall (concurrent_insert st) [a; b])
    by (repeat apply List.Forall_cons; auto).
  assert (Fba : Forall (concurrent_insert st) [b; a])
    by (repeat apply List.Forall_cons; auto).
  destruct (concurrent_view st _ W Fab) as [C1 _].
  destruct (concurrent_view st _ W Fba) as [C2 _].
  rewrite C1, C2.
  rewrite (tie_view (content st) a b) by assumption.
  rewrite (tie_view (content st) b a) by (try assumption; congruence).
  rewrite (lower_comm a b N), (upper_comm a b N), E.
  repeat split; try reflexivity.
  - unfold upper, lower.
    destruct (String.leb (op_originId a) (op_originId b)) eqn:L.
    + rewrite (transform1_insert b a Hb Ha), (prior_first_tie a b E), L.
      reflexivity.
    + rewrite (transform1_insert a b Ha Hb), (prior_first_tie b a (eq_sym E)),
              (leb_flip _ _ N), L.
      reflexivity.
  - unfold upper, lower.
    destruct (String.leb (op_originId a) (op_originId b)) eqn:L.
    + rewrite (transform1_insert a b Ha Hb), (prior_first_tie b a (eq_sym E)),
              (leb_flip _ _ N), L.
      reflexivity.
    + rewrite (transform1_insert b a Hb Ha), (prior_first_tie a b E), L.
      reflexivity.
Qed.

Lemma tie_break_deterministic_witness :
  transform1 (ins 5 "B" 5 "conn-b") (ins 5 "A" 5 "conn-a")
    = with_position (ins 5 "B" 5 "conn-b") (5 + 1)
  /\ transform1 (ins 5 "A" 5 "conn-a") (ins 5 "B" 5 "conn-b")
     = ins 5 "A" 5 "conn-a"
  /\ content (apply_all [ins 5 "B" 5 "conn-b"; ins 5 "A" 5 "conn-a"] hello_state)
     = insert_at 5 (txt "A" ++ txt "B") (txt "hello")
  /\ content (apply_all [ins 5 "A" 5 "conn-a"; ins 5 "B" 5 "conn-b"] hello_state)
     = content (apply_all [ins 5 "B" 5 "conn-b"; ins 5 "A" 5 "conn-a"] hello_state).
Proof.
  apply (tie_break_deterministic hello_state
           (ins 5 "B" 5 "conn-b") (ins 5 "A" 5 "conn-a")).
  - reflexivity.
  - repeat split; simpl; lia.
  - repeat split; simpl; lia.
  - reflexivity.
  - discriminate.
Defined.

(** ** The overlap of two deletes *)

Lemma commit_current (st : DocumentState) (op : Operation) :
  well_formed st -> op_baseVersion op = version st ->
  in_range op (content st) = true ->
  commit op st
  = inr (mkState (apply_op op (content st)) (S (version st))
                 (history st ++ [op])).
Proof.
  intros W B R. unfold commit, transformed.
  rewrite B, Nat.ltb_irrefl, <- W, drop_all. simpl. rewrite R. reflexivity.
Qed.

Lemma commit_after_one (st : DocumentState) (op prior : Operation) :
  well_formed st -> op_baseVersion op = version st ->
  in_range (transform1 op prior) (apply_op prior (content st)) = true ->
  commit op (mkState (apply_op prior (content st)) (S (version st))
                     (history st ++ [prior]))
  = inr (mkState (apply_op (transform1 op prior)
                           (apply_op prior (content st)))
                 (S (S (version st)))
                 ((history st ++ [prior]) ++ [transform1 op prior])).
Proof.
  intros W B R. unfold commit, transformed. simpl.
  rewrite B. replace (S (version st) <? version st) with false
    by (symmetry; apply Nat.ltb_ge; lia).
  rewrite <- W, drop_app_length. simpl. rewrite R. reflexivity.
Qed.

(** C4: a delete transformed against a prior delete stays a delete whose
    length is the original length minus the overlap with the prior range;
    committed after the prior delete it is accepted, never rejected as out
    of range, and removes what the prior delete left of its range, so that
    both commit orders of the two deletes give the same content; and when
    the prior range contains it, it has length 0 and leaves the content as
    the prior delete left it. *)
Theorem delete_against_delete (st : DocumentState) (op prior : Operation) :
  well_formed st ->
  op_kind op = KDelete -> op_kind prior = KDelete ->
  op_baseVersion op = version st -> op_baseVersion prior = version st ->
  in_range op (content st) = true -> in_range prior (content st) = true ->
  op_kind (transform1 op prior) = KDelete
  /\ op_length (transform1 op prior)
     = op_length op - overlap (op_position op) (op_length op)
                              (op_position prior) (op_length prior)
  /\ (exists st1 st2,
        commit prior st = inr st1 /\ commit op st1 = inr st2
        /\ content st2 = apply_op (transform1 op prior) (content st1)
        /\ version st2 = version st + 2)
  /\ apply_op (transform1 op prior) (apply_op prior (content st))
     = apply_op (transform1 prior op) (apply_op op (content st))
  /\ (op_position prior <= op_position op ->
      op_position op + op_length op <= op_position prior + op_length prior ->
      op_length (transform1 op prior) = 0
      /\ apply_op (transform1 op prior) (apply_op prior (content st))
         = apply_op prior (content st)).
Proof.
  intros W Ko Kp Bo Bp Ro Rp.
  pose proof (delete_tp1 prior op (content st) Kp Ko Rp Ro) as Tp1.
  assert (K' : op_kind (transform1 op prior) = KDelete)
    by (rewrite transform1_kind; exact Ko).
  pose proof (transform1_delete op prior Ko Kp) as T.
  unfold in_range in Ro, Rp. rewrite Ko in Ro. rewrite Kp in Rp.
  apply Nat.leb_le in Ro, Rp.
  assert (Len : op_length (transform1 op prior)
                = op_length op - overlap (op_position op) (op_length op)
                                         (op_position prior) (op_length prior)).
  { rewrite T. unfold with_range, overlap, after_delete; simpl.
    repeat case_match; props; lia. }
  assert (R' : in_range (transform1 op prior) (apply_op prior (content st)) = true).
  { unfold in_range. rewrite K'. apply Nat.leb_le.
    unfold apply_op at 1. rewrite Kp, remove_range_length by exact Rp.
    rewrite T. unfold with_range, after_delete; simpl.
    repeat case_match; props; lia. }
  repeat split; try assumption.
  - eexists _, _. split; [|split; [|split]].
    + apply commit_current; try assumption.
      unfold in_range. rewrite Kp. apply Nat.leb_le. exact Rp.
    + apply commit_after_one; assumption.
    + reflexivity.
    + simpl. lia.
  - rewrite Len. unfold overlap. lia.
  - assert (Z : op_length (transform1 op prior) = 0)
      by (rewrite Len; unfold overlap; lia).
    unfold apply_op at 1. rewrite K', Z. apply remove_nothing.
Qed.

Lemma delete_against_delete_witness :
  op_kind (transform1 (del 2 1 5 "B") (del 1 3 5 "A")) = KDelete
  /\ op_length (transform1 (del 2 1 5 "B") (del 1 3 5 "A"))
     = 1 - overlap 2 1 1 3
  /\ (exists st1 st2,
        commit (del 1 3 5 "A") hello_state = inr st1
        /\ commit (del 2 1 5 "B") st1 = inr st2
        /\ content st2
           = apply_op (transform1 (del 2 1 5 "B") (del 1 3 5 "A")) (content st1)
        /\ version st2 = 5 + 2)
  /\ apply_op (transform1 (del 2 1 5 "B") (del 1 3 5 "A"))
              (apply_op (del 1 3 5 "A") (txt "hello"))
     = apply_op (transform1 (del 1 3 5 "A") (del 2 1 5 "B"))
                (apply_op (del 2 1 5 "B") (txt "hello"))
  /\ (1 <= 2 -> 2 + 1 <= 1 + 3 ->
      op_length (transform1 (del 2 1 5 "B") (del 1 3 5 "A")) = 0
      /\ apply_op (transform1 (del 2 1 5 "B") (del 1 3 5 "A"))
                  (apply_op (del 1 3 5 "A") (txt "hello"))
         = apply_op (del 1 3 5 "A") (txt "hello")).
Proof.
  apply (delete_against_delete hello_state (del 2 1 5 "B") (del 1 3 5 "A"));
    reflexivity.
Defined.

(** * Properties of the document session *)

Import Session.

Lemma commit_inr (op : Operation) (st st' : DocumentState) :
  commit op st = inr st' ->
  st' = mkState (apply_op (transformed op st) (content st))
                (S (version st))
                (history st ++ [transformed op st]).
Proof.
  unfold commit. repeat case_match; intros E; inversion E; reflexivity.
Qed.

Lemma call_step (c : Call) (s : DocumentSession) :
  quiet_step s (fst (call c s)) (snd (call c s))
  \/ commit_step s (fst (call c s)) (snd (call c s)).
Proof.
  destruct c as [cid user [r|]|cid op|cid]; simpl.
  - left. split; reflexivity.
  - left. split; reflexivity.
  - unfold submit.
    destruct (find_connection cid s) as [c|]; [|left; split; reflexivity].
    destruct (may_edit (role c)); [|left; split; reflexivity].
    destruct (commit (stamp cid op) (state s)) as [e|st'] eqn:C;
      [left; split; reflexivity|].
    right. apply commit_inr in C. subst st'. simpl.
    eexists _, _. repeat split.
  - unfold remove.
    destruct (find_connection cid s); left; split; reflexivity.
Qed.

Lemma serve_snoc (cs : list Call) (c : Call) (s : DocumentSession) :
  serve (cs ++ [c]) s
  = (fst (call c (fst (serve cs s))),
     snd (serve cs s) ++ snd (call c (fst (serve cs s)))).
Proof.
  revert s. induction cs as [|c0 cs IH]; intros s; simpl.
  - destruct (call c s). simpl. rewrite app_nil_r. reflexivity.
  - destruct (call c0 s) as [s1 o1]. rewrite IH.
    destruct (serve cs s1) as [s2 o2]. simpl.
    rewrite app_assoc. reflexivity.
Qed.

Lemma serve_app (cs1 cs2 : list Call) (s : DocumentSession) :
  fst (serve (cs1 ++ cs2) s) = fst (serve cs2 (fst (serve cs1 s))).
Proof.
  revert s. induction cs1 as [|c cs1 IH]; intros s; simpl; [reflexivity|].
  destruct (call c s) as [s1 o1]. specialize (IH s1).
  destruct (serve (cs1 ++ cs2) s1), (serve cs1 s1). simpl in *. exact IH.
Qed.

(** The history only grows, at its end. *)
Lemma serve_history (cs : list Call) (s : DocumentSession) :
  exists ext,
    history (state (fst (serve cs s))) = history (state s) ++ ext.
Proof.
  revert s. induction cs as [|c cs IH]; intros s; simpl.
  - exists []. rewrite app_nil_r. reflexivity.
  - destruct (call_step c s) as [[Q _]|(op & rcpt & H1 & _)];
      destruct (call c s) as [s1 o1]; simpl in *;
      destruct (IH s1) as [ext E]; destruct (serve cs s1); simpl in *.
    + exists ext. rewrite E, Q. reflexivity.
    + exists (op :: ext). rewrite E, H1, <- app_assoc. reflexivity.
Qed.

Lemma op_versions_app (o1 o2 : list Output) :
  op_versions (o1 ++ o2) = op_versions o1 ++ op_versions o2.
Proof.
  induction o1 as [|[r m] o1 IH]; [reflexivity|].
  destruct m; simpl; rewrite IH; reflexivity.
Qed.

Lemma op_versions_elem (o : list Output) (v : nat) :
  v ∈ op_versions o <-> exists r op, (r, MsgOp v op) ∈ o.
Proof.
  induction o as [|[r m] o IH]; simpl.
  - split; [intros H; inversion H | intros (r & op & H); inversion H].
  - destruct m; rewrite ?elem_of_cons, IH; split;
      try (intros (r' & op' & H); exists r', op'; right; exact H);
      try (intros (r' & op' & H); apply elem_of_cons in H as [H|H];
           [discriminate | exists r', op'; exact H]).
    + intros [->|(r' & op' & H)]; [exists r, op; left | exists r', op'; right; exact H].
    + intros (r' & op' & H). apply elem_of_cons in H as [H|H].
      * left. congruence.
      * right. exists r', op'. exact H.
Qed.

Lemma replay_snoc (h : list Operation) (op : Operation) :
  replay (h ++ [op]) = apply_op op (replay h).
Proof. unfold replay. rewrite fold_left_app. reflexivity. Qed.

Lemma session_inv_step (s : DocumentSession) (outs : list Output) (c : Call) :
  session_inv s outs ->
  session_inv (fst (call c s)) (outs ++ snd (call c s)).
Proof.
  intros (W & R & Srt & Bnd & Tag).
  destruct (call_step c s) as [[Q1 Q2]|(op & rcpt & H1 & H2 & H3 & H4)].
  - unfold session_inv. rewrite Q1, op_versions_app, Q2, app_nil_r.
    repeat split; try assumption.
    + apply elem_of_app in H as [Hin|Hin].
      * apply (Tag r v op Hin).
      * assert (Hv : v ∈ op_versions (snd (call c s)))
          by (apply op_versions_elem; eauto).
        rewrite Q2 in Hv. inversion Hv.
    + apply elem_of_app in H as [Hin|Hin].
      * apply (Tag r v op Hin).
      * assert (Hv : v ∈ op_versions (snd (call c s)))
          by (apply op_versions_elem; eauto).
        rewrite Q2 in Hv. inversion Hv.
  - destruct (call c s) as [s' o]. simpl in *. subst o.
    unfold session_inv, well_formed in *.
    rewrite op_versions_app. simpl. rewrite H1, H2, H3.
    repeat split.
    + rewrite length_app. simpl. lia.
    + rewrite replay_snoc, R. reflexivity.
    + apply StronglySorted_app_2; [|assumption|repeat constructor].
      intros x1 x2 Hx1 Hx2. apply list_elem_of_singleton in Hx2. subst x2.
      apply (proj1 (Forall_forall _ _) Bnd) in Hx1. lia.
    + apply Forall_app. split.
      * eapply Forall_impl; [exact Bnd|]. simpl. intros. lia.
      * repeat constructor.
    + apply elem_of_app in H as [Hin|Hin].
      * apply (Tag r v op0 Hin).
      * apply list_elem_of_singleton in Hin. inversion Hin. lia.
    + apply elem_of_app in H as [Hin|Hin].
      * destruct (Tag r v op0 Hin) as [_ L].
        rewrite lookup_app_l; [exact L|].
        apply lookup_lt_Some in L. exact L.
      * apply list_elem_of_singleton in Hin. inversion Hin; subst.
        simpl. rewrite Nat.sub_0_r, <- W.
        apply list_lookup_middle. reflexivity.
Qed.

Lemma session_inv_serve (cs : list Call) :
  session_inv (session_after cs) (emitted cs).
Proof.
  unfold session_after, emitted.
  induction cs as [|c cs IH] using rev_ind.
  - simpl. repeat split; try constructor; inversion H.
  - rewrite serve_snoc. simpl. apply session_inv_step. exact IH.
Qed.

(** C5: a new session starts at version 0; at every point of its life the
    version counts the accepted operations (the length of the history) and
    replaying the history gives the content; each call either commits
    nothing or appends exactly one operation to the history, applies it,
    increments the version by one and broadcasts that operation tagged with
    the new version; the versions of the broadcast operations are strictly
    increasing, and a broadcast tagged [v] carries [history[v-1]], the
    operation that took the document from version [v-1] to [v]. *)
Theorem version_monotonicity (cs : list Call) (c : Call) :
  version (state new_session) = 0
  /\ version (state (session_after cs))
     = length (history (state (session_after cs)))
  /\ content (state (session_after cs))
     = replay (history (state (session_after cs)))
  /\ (quiet_step (session_after cs)
                 (fst (call c (session_after cs)))
                 (snd (call c (session_after cs)))
      \/ commit_step (session_after cs)
                     (fst (call c (session_after cs)))
                     (snd (call c (session_after cs))))
  /\ (forall cs1 cs2, cs = cs1 ++ cs2 ->
        history (state (session_after cs1))
        = take (version (state (session_after cs1)))
               (history (state (session_after cs))))
  /\ StronglySorted lt (op_versions (emitted cs))
  /\ (forall r v op, (r, MsgOp v op) ∈ emitted cs ->
        0 < v /\ history (state (session_after cs)) !! (v - 1) = Some op).
Proof.
  destruct (session_inv_serve cs) as (W & R & Srt & _ & Tag).
  repeat split; try assumption.
  - symmetry. exact W.
  - apply call_step.
  - intros cs1 cs2 ->.
    destruct (session_inv_serve cs1) as (W1 & _).
    destruct (serve_history cs2 (session_after cs1)) as [ext E].
    unfold session_after at 3. rewrite serve_app.
    fold (session_after cs1). rewrite E, <- W1, take_app_length.
    reflexivity.
  - apply (Tag r v op H).
  - apply (Tag r v op H).
Qed.

(** A session in which two editors each commit one insert: both are
    accepted, broadcast to the other editor and tagged 1 and 2. *)
Example two_editors :
  let cs := [CAdmit "c1" "alice" (Some owner); CAdmit "c2" "bob" (Some editor);
             CAdmit "c3" "eve" (Some viewer);
             CSubmit "c1" (ins 0 "ab" 0 ""); CSubmit "c2" (ins 0 "X" 0 "");
             CSubmit "c3" (ins 0 "!" 0 "")] in
  content (state (session_after cs)) = txt "abX"
  /\ version (state (session_after cs)) = 2
  /\ op_versions (emitted cs) = [1; 2]
  /\ (["c2"; "c3"], MsgOp 1 (ins 0 "ab" 0 "c1")) ∈ emitted cs
  /\ (["c3"], MsgError "PermissionDenied") ∈ emitted cs.
Proof.
  vm_compute. repeat split; try reflexivity; repeat constructor.
Qed.

(** * Properties of the gateway *)

Import Json Gateway.

Section GatewayFacts.
Context `{C : DocumentSessionClass}.

(** ** The access gate *)

Lemma strict_eq_true (userId : string) (owner : option string) :
  strict_eq userId owner = true <-> owner = Some userId.
Proof.
  destruct owner as [o|]; simpl; [|split; discriminate].
  rewrite String.eqb_eq. split; congruence.
Qed.

Lemma strict_eq_false (userId : string) (owner : option string) :
  owner <> Some userId -> strict_eq userId owner = false.
Proof.
  intros N. destruct (strict_eq userId owner) eqn:E; [|reflexivity].
  apply strict_eq_true in E. contradiction.
Qed.

Lemma falsy_nonempty (r : string) : r <> "" -> falsy (Some r) = false.
Proof. intros N. simpl. apply String.eqb_neq. exact N. Qed.

Lemma js_or_nonempty (r d : string) : r <> "" -> js_or (Some r) d = r.
Proof. intros N. simpl. apply String.eqb_neq in N. rewrite N. reflexivity. Qed.

(** C6: the role the connection handler resolves.  The owner of the
    document gets "owner"; any other user gets the role the ACL holds for
    them; without one, the link-sharing role of the document, unless that
    is missing or "none", in which case the connection is refused.  (Roles
    are non-empty strings.) *)
Theorem access_gate_policy (redis : Redis) (docId userId : string) :
  (redis_get (doc_owner redis) docId = Some userId ->
   access_gate redis docId userId = Granted (Some "owner"))
  /\ (redis_get (doc_owner redis) docId <> Some userId ->
      forall r, redis_hget (doc_acl redis) docId userId = Some r -> r <> "" ->
      access_gate redis docId userId = Granted (Some r))
  /\ (redis_get (doc_owner redis) docId <> Some userId ->
      redis_hget (doc_acl redis) docId userId = None ->
      forall l, redis_hget (doc_settings redis) docId "link_access" = Some l ->
      l <> "" -> l <> "none" ->
      access_gate redis docId userId = Granted (Some l))
  /\ (redis_get (doc_owner redis) docId <> Some userId ->
      redis_hget (doc_acl redis) docId userId = None ->
      redis_hget (doc_settings redis) docId "link_access" = None
      \/ redis_hget (doc_settings redis) docId "link_access" = Some "none" ->
      access_gate redis docId userId = Denied).
Proof.
  unfold access_gate, authorize. repeat split.
  - intros O. rewrite (proj2 (strict_eq_true userId _) O). reflexivity.
  - intros O r R N. rewrite (strict_eq_false _ _ O), R, (falsy_nonempty r N).
    reflexivity.
  - intros O R l L N1 N2. rewrite (strict_eq_false _ _ O), R, L.
    rewrite (js_or_nonempty l _ N1). simpl.
    apply String.eqb_neq in N2. rewrite N2. reflexivity.
  - intros O R [L|L]; rewrite (strict_eq_false _ _ O), R, L; reflexivity.
Qed.

(** The role handed to [addUser] is the resolved one: the fallback
    ['viewer'] of [finalRole || 'viewer'] is never taken. *)
Lemma granted_role_nonempty (owner role linkAccess : option string)
  (userId : string) (finalRole : option string) :
  authorize owner role linkAccess userId = Granted finalRole ->
  exists r, finalRole = Some r /\ r <> "" /\ js_or finalRole "viewer" = r.
Proof.
  unfold authorize.
  destruct (strict_eq userId owner); simpl.
  - intros E. inversion E. exists "owner". repeat split. discriminate.
  - destruct role as [r|]; simpl.
    + destruct (String.eqb_spec r ""); simpl.
      * destruct (String.eqb_spec (js_or linkAccess "none") "none");
          simpl; [discriminate|].
        intros E. inversion E. exists (js_or linkAccess "none").
        assert (N : js_or linkAccess "none" <> "").
        { destruct linkAccess as [l|]; simpl; [|discriminate].
          destruct (String.eqb_spec l ""); [discriminate|assumption]. }
        repeat split; [exact N|]. apply js_or_nonempty. exact N.
      * intros E. inversion E. exists r. repeat split; [assumption|].
        apply js_or_nonempty. assumption.
    + destruct (String.eqb_spec (js_or linkAccess "none") "none");
        simpl; [discriminate|].
      intros E. inversion E. exists (js_or linkAccess "none").
      assert (N : js_or linkAccess "none" <> "").
      { destruct linkAccess as [l|]; simpl; [|discriminate].
        destruct (String.eqb_spec l ""); [discriminate|assumption]. }
      repeat split; [exact N|]. apply js_or_nonempty. exact N.
Qed.

(** ** The session registry *)

Lemma key_of_update (ref r : nat) (o : DocumentSession) (srv : Server) :
  key_of (update_object ref o srv) r = key_of srv r.
Proof.
  unfold key_of, update_object; simpl.
  rewrite list_lookup_alter. case_decide as E; [subst r|reflexivity].
  destruct (objects srv !! ref) as [[k x]|]; reflexivity.
Qed.

Lemma registry_inv_same (srv srv' : Server) :
  sessions srv' = sessions srv ->
  (forall r, key_of srv' r = key_of srv r) ->
  (forall ws ref cid, sockets srv' !! ws = Some (ref, cid) ->
     is_Some (key_of srv ref)) ->
  registry_inv srv -> registry_inv srv'.
Proof.
  intros HS HK HW (I1 & I2 & I3). repeat split.
  - intros key ref. rewrite HS, HK. apply I1.
  - intros key ref. rewrite HS, HK. apply I2.
  - intros ws ref cid. rewrite HK. apply HW.
Qed.

Lemma key_of_lt (srv : Server) (ref : nat) :
  is_Some (key_of srv ref) <-> ref < length (objects srv).
Proof.
  unfold key_of. rewrite fmap_is_Some. apply lookup_lt_is_Some.
Qed.

(** What [resolve] returns and leaves behind. *)
Lemma resolve_spec (key : string) (srv : Server) :
  registry_inv srv ->
  registry_inv (fst (resolve key srv))
  /\ sessions (fst (resolve key srv)) !! key = Some (snd (resolve key srv))
  /\ key_of (fst (resolve key srv)) (snd (resolve key srv)) = Some key
  /\ sockets (fst (resolve key srv)) = sockets srv
  /\ (forall k r, sessions srv !! k = Some r ->
        sessions (fst (resolve key srv)) !! k = Some r)
  /\ (forall k r, sessions (fst (resolve key srv)) !! k = Some r ->
        sessions srv !! k = Some r
        \/ (k = key /\ r = length (objects srv) /\ sessions srv !! key = None)).
Proof.
  intros (I1 & I2 & I3). unfold resolve.
  destruct (sessions srv !! key) as [ref|] eqn:E; simpl.
  - repeat split; auto.
  - assert (New : forall r, key_of (mkServer (<[key:=length (objects srv)]> (sessions srv))
                      (objects srv ++ [(key, new_DocumentSession key)])
                      (sockets srv)) r
                  = if decide (r = length (objects srv)) then Some key
                    else key_of srv r).
    { intros r. unfold key_of; simpl. case_decide as D.
      - subst r. rewrite list_lookup_middle by reflexivity. reflexivity.
      - destruct (decide (r < length (objects srv))) as [L|L].
        + rewrite lookup_app_l by exact L. reflexivity.
        + rewrite (proj2 (lookup_ge_None _ _)) by (rewrite length_app; simpl; lia).
          rewrite (proj2 (lookup_ge_None (objects srv) r)) by lia.
          reflexivity. }
    repeat split; simpl.
    + intros k r. rewrite New, lookup_insert.
      destruct (decide (key = k)) as [D1|D1];
        destruct (decide (r = length (objects srv))) as [D2|D2]; intros H.
      * congruence.
      * congruence.
      * subst r. apply I1 in H.
        assert (L : is_Some (key_of srv (length (objects srv))))
          by (rewrite H; eauto).
        apply key_of_lt in L. lia.
      * apply I1. exact H.
    + intros k r. rewrite New, lookup_insert.
      destruct (decide (key = k)) as [D1|D1];
        destruct (decide (r = length (objects srv))) as [D2|D2]; intros H.
      * congruence.
      * apply I2 in H. congruence.
      * congruence.
      * apply I2. exact H.
    + intros ws ref cid H. rewrite New. case_decide; [eauto|].
      apply (I3 ws ref cid H).
    + apply lookup_insert_eq.
    + rewrite New. rewrite decide_True by reflexivity. reflexivity.
    + intros k r H. rewrite lookup_insert_ne; [exact H|]. congruence.
    + intros k r. rewrite lookup_insert. case_decide as D.
      * intros H. inversion H. subst. right. auto.
      * intros H. left. exact H.
Qed.

Lemma handle_inv (e : Event) (srv srv' : Server) (acts : list WsAction) :
  registry_inv srv -> handle e srv = Returned srv' acts -> registry_inv srv'.
Proof.
  intros I. destruct e as [ws req redis|ws frame|ws|ref]; simpl.
  - unfold on_connection.
    destruct (falsy _ || falsy _ || falsy _); [intros E; inversion E; subst; exact I|].
    destruct (access_gate _ _ _) as [|finalRole];
      [intros E; inversion E; subst; exact I|].
    destruct (resolve_spec (sessionKey (default "" (q_docId req))
                                       (default "" (q_tabId req))) srv I)
      as (I' & _ & K & W & _).
    destruct (resolve _ srv) as [srv1 ref]; simpl in *.
    destruct (objects srv1 !! ref) as [[k session]|]; [|discriminate].
    destruct (addUser _ _ _ _) as [[session' cid] a].
    intros E; inversion E; subst.
    destruct I' as (I1 & I2 & I3).
    assert (KK : forall r,
               key_of (mkServer (sessions (update_object ref session' srv1))
                                (objects (update_object ref session' srv1))
                                (<[ws:=(ref, cid)]>
                                   (sockets (update_object ref session' srv1)))) r
               = key_of srv1 r)
      by (intros r; apply (key_of_update ref r session' srv1)).
    repeat split.
    + intros key r. rewrite KK. apply I1.
    + intros key r. rewrite KK. apply I2.
    + intros ws' r c. rewrite KK. simpl. rewrite lookup_insert.
      case_decide as D.
      * intros Q. inversion Q; subst. rewrite K. eauto.
      * apply I3.
  - unfold on_message.
    destruct (sockets srv !! ws) as [[ref cid]|]; [|intros E; inversion E; subst; exact I].
    destruct (JSON_parse frame); [|discriminate].
    destruct (objects srv !! ref) as [[k session]|]; [|discriminate].
    destruct (handleEdit _ _ _) as [session' a].
    intros E; inversion E; subst.
    apply (registry_inv_same srv); auto.
    + intros r. apply key_of_update.
    + apply I.
  - unfold on_close.
    destruct (sockets srv !! ws) as [[ref cid]|]; [|intros E; inversion E; subst; exact I].
    destruct (objects srv !! ref) as [[k session]|]; [|discriminate].
    destruct (removeUser _ _) as [session' a].
    intros E; inversion E; subst.
    apply (registry_inv_same srv); auto.
    + intros r. apply (key_of_update ref r session' srv).
    + simpl. intros ws' r c H. apply lookup_delete_Some in H as [_ H].
      destruct I as (_ & _ & I3). apply (I3 ws' r c H).
  - unfold on_timer.
    destruct (objects srv !! ref) as [[k session]|]; [|intros E; inversion E; subst; exact I].
    destruct (onTimer _) as [session' a].
    intros E; inversion E; subst.
    apply (registry_inv_same srv); auto.
    + intros r. apply key_of_update.
    + apply I.
Qed.

Lemma run_inv (es : list Event) (srv srv' : Server) :
  registry_inv srv -> run es srv = Some srv' -> registry_inv srv'.
Proof.
  revert srv. induction es as [|e es IH]; intros srv I; simpl.
  - intros E; inversion E; subst; exact I.
  - destruct (handle e srv) as [srv1 acts|] eqn:H; [|discriminate].
    apply IH. apply (handle_inv e srv srv1 acts I H).
Qed.

Lemma initial_inv : registry_inv initial_server.
Proof.
  repeat split; simpl.
  - intros key ref H. rewrite lookup_empty in H. discriminate.
  - intros key ref H. unfold key_of in H. simpl in H. discriminate.
  - intros ws ref cid H. rewrite lookup_empty in H. discriminate.
Qed.

Lemma reachable_inv (srv : Server) : reachable srv -> registry_inv srv.
Proof. intros [es R]. apply (run_inv es initial_server srv initial_inv R). Qed.

(** C7: in every reachable state, resolving a (documentId, tabId) key
    returns the session the registry holds for it, or constructs one and
    registers it; and no two distinct [DocumentSession] objects were
    constructed for the same key: every object made for the key is the one
    the registry maps the key to. *)
Theorem one_session_per_key (srv : Server) (docId tabId : string) :
  reachable srv ->
  (forall ref, sessions srv !! sessionKey docId tabId = Some ref ->
     resolve (sessionKey docId tabId) srv = (srv, ref))
  /\ (sessions srv !! sessionKey docId tabId = None ->
      resolve (sessionKey docId tabId) srv
      = (mkServer (<[sessionKey docId tabId := length (objects srv)]> (sessions srv))
                  (objects srv ++ [(sessionKey docId tabId,
                                    new_DocumentSession (sessionKey docId tabId))])
                  (sockets srv),
         length (objects srv)))
  /\ (forall r1 r2,
        key_of srv r1 = Some (sessionKey docId tabId) ->
        key_of srv r2 = Some (sessionKey docId tabId) ->
        r1 = r2 /\ sessions srv !! sessionKey docId tabId = Some r1)
  /\ (forall ws ref cid, sockets srv !! ws = Some (ref, cid) ->
        exists key, key_of srv ref = Some key /\ sessions srv !! key = Some ref).
Proof.
  intros R. apply reachable_inv in R. destruct R as (I1 & I2 & I3).
  repeat split.
  - intros ref H. unfold resolve. rewrite H. reflexivity.
  - intros H. unfold resolve. rewrite H. reflexivity.
  - apply I2 in H, H0. congruence.
  - apply I2 in H. exact H.
  - intros ws ref cid H. destruct (I3 ws ref cid H) as [key K].
    exists key. split; [exact K|]. apply I2. exact K.
Qed.

End GatewayFacts.

Section GatewayHandlers.
Context `{C : DocumentSessionClass}.

(** ** Frames that do not parse *)

(** [JSON.parse] reads back what [JSON.stringify] writes, here an insert
    frame of the protocol, and rejects text that is not JSON. *)
Example frame_parses :
  JSON_parse
    (JSON_stringify
       (JObject [("kind", JString "insert"); ("position", JNumber "5");
                 ("content", JString " world"); ("baseVersion", JNumber "5");
                 ("clientSeq", JNumber "1")]))
  = Some (JObject [("kind", JString "insert"); ("position", JNumber "5");
                   ("content", JString " world"); ("baseVersion", JNumber "5");
                   ("clientSeq", JNumber "1")])
  /\ JSON_parse " [1, -2.5e3, true, null, {}] "
     = Some (JArray [JNumber "1"; JNumber "-2.5e3"; JBool true; JNull;
                     JObject []])
  /\ JSON_parse "{" = None /\ JSON_parse "" = None /\ JSON_parse "[1,]" = None
  /\ JSON_parse "01" = None /\ JSON_parse "1 2" = None.
Proof. vm_compute. repeat split; reflexivity. Qed.

(** C8 fails on the handler: [JSON.parse] is called with no [try] around
    it, so on a socket that has its listeners a frame it rejects is not
    answered with a ProtocolError or with anything else; the [SyntaxError]
    leaves the handler uncaught before it has sent anything, and the
    process ends: no later event is handled. *)
Theorem malformed_frame_ends_process (ws : nat) (frame : string)
  (srv : Server) (ref : nat) (cid : ConnectionId) (es : list Event) :
  JSON_parse frame = None ->
  sockets srv !! ws = Some (ref, cid) ->
  on_message ws frame srv = Uncaught "SyntaxError" []
  /\ run (EMessage ws frame :: es) srv = None.
Proof.
  intros P S. simpl. unfold on_message. rewrite S, P. split; reflexivity.
Qed.

(** ** Refused connections *)

Lemma handshake_complete (req : Request) (docId tabId userId : string) :
  q_docId req = Some docId -> q_tabId req = Some tabId ->
  q_userId req = Some userId ->
  docId <> "" -> tabId <> "" -> userId <> "" ->
  falsy (q_docId req) || falsy (q_userId req) || falsy (q_tabId req) = false.
Proof.
  intros -> -> -> N1 N2 N3.
  rewrite !falsy_nonempty by assumption. reflexivity.
Qed.

(** C9 (amended): when the access gate refuses a connection, the handler
    sends the client the frame [{"type":"error","message":"Access Denied."}]
    and then closes the socket with [ws.close()], giving no close code; the
    server state is untouched. *)
Theorem access_denied_reply (ws : nat) (req : Request) (redis : Redis)
  (srv : Server) (docId tabId userId : string) :
  q_docId req = Some docId -> q_tabId req = Some tabId ->
  q_userId req = Some userId ->
  docId <> "" -> tabId <> "" -> userId <> "" ->
  access_gate redis docId userId = Denied ->
  on_connection ws req redis srv
  = Returned srv [Send ws (JSON_stringify access_denied); Close ws None]
  /\ JSON_parse (JSON_stringify access_denied)
     = Some (JObject [("type", JString "error");
                      ("message", JString "Access Denied.")]).
Proof.
  intros D T U N1 N2 N3 A. split; [|vm_compute; reflexivity].
  unfold on_connection.
  rewrite (handshake_complete req docId tabId userId) by assumption.
  rewrite D, U. simpl. rewrite A. reflexivity.
Qed.

(** ** The life of a registry entry *)

Lemma resolve_sessions (key k : string) (r : nat) (srv : Server) :
  sessions (fst (resolve key srv)) !! k = Some r
  <-> sessions srv !! k = Some r
      \/ (k = key /\ sessions srv !! key = None /\ r = length (objects srv)).
Proof.
  unfold resolve. destruct (sessions srv !! key) as [ref|] eqn:E; simpl.
  - split; [auto|]. intros [H|(_ & H & _)]; [exact H|discriminate].
  - rewrite lookup_insert. case_decide as D.
    + subst k. rewrite E. split.
      * intros H. inversion H. right. auto.
      * intros [H|(_ & _ & ->)]; [discriminate|reflexivity].
    + split; [auto|]. intros [H|(H & _)]; [exact H|congruence].
Qed.

Lemma handle_sessions (e : Event) (srv srv' : Server) (acts : list WsAction) :
  handle e srv = Returned srv' acts ->
  sessions srv' = sessions srv
  \/ exists ws req redis docId tabId userId,
       e = EConnection ws req redis
       /\ q_docId req = Some docId /\ q_tabId req = Some tabId
       /\ q_userId req = Some userId
       /\ access_gate redis docId userId <> Denied
       /\ sessions srv' = sessions (fst (resolve (sessionKey docId tabId) srv)).
Proof.
  destruct e as [ws req redis|ws frame|ws|ref]; simpl.
  - unfold on_connection.
    destruct (falsy _ || falsy _ || falsy _) eqn:F;
      [intros E; inversion E; auto|].
    destruct (q_docId req) as [docId|] eqn:D; [|discriminate].
    destruct (q_userId req) as [userId|] eqn:U;
      [|simpl in F; rewrite orb_true_r in F; discriminate].
    destruct (q_tabId req) as [tabId|] eqn:T;
      [|simpl in F; rewrite !orb_true_r in F; discriminate].
    simpl.
    destruct (access_gate redis docId userId) as [|finalRole] eqn:A;
      [intros E; inversion E; auto|].
    destruct (resolve (sessionKey docId tabId) srv) as [srv1 r] eqn:R.
    destruct (objects srv1 !! r) as [[k session]|]; [|discriminate].
    destruct (addUser _ _ _ _) as [[session' cid] a].
    intros E; inversion E; subst. right.
    exists ws, req, redis, docId, tabId, userId.
    rewrite R. repeat split; auto. rewrite A. discriminate.
  - unfold on_message.
    destruct (sockets srv !! ws) as [[ref cid]|]; [|intros E; inversion E; auto].
    destruct (JSON_parse frame); [|discriminate].
    destruct (objects srv !! ref) as [[k session]|]; [|discriminate].
    destruct (handleEdit _ _ _). intros E; inversion E; auto.
  - unfold on_close.
    destruct (sockets srv !! ws) as [[ref cid]|]; [|intros E; inversion E; auto].
    destruct (objects srv !! ref) as [[k session]|]; [|discriminate].
    destruct (removeUser _ _). intros E; inversion E; auto.
  - unfold on_timer.
    destruct (objects srv !! ref) as [[k session]|]; [|intros E; inversion E; auto].
    destruct (onTimer _). intros E; inversion E; auto.
Qed.

Lemma resolved_object (key : string) (srv : Server) :
  registry_inv srv ->
  exists session,
    objects (fst (resolve key srv)) !! snd (resolve key srv)
    = Some (key, session).
Proof.
  intros I. destruct (resolve_spec key srv I) as (_ & _ & K & _).
  unfold key_of in K.
  destruct (objects (fst (resolve key srv)) !! snd (resolve key srv))
    as [[k session]|]; [|discriminate].
  simpl in K. inversion K. eauto.
Qed.

(** What the connection handler does once the gate has granted a role:
    it resolves the session of the key and hands the connection to
    [addUser] with that role. *)
Lemma on_connection_granted (ws : nat) (req : Request) (redis : Redis)
  (srv : Server) (docId tabId userId : string) (finalRole : option string)
  (session : DocumentSession) :
  q_docId req = Some docId -> q_tabId req = Some tabId ->
  q_userId req = Some userId ->
  docId <> "" -> tabId <> "" -> userId <> "" ->
  access_gate redis docId userId = Granted finalRole ->
  objects (fst (resolve (sessionKey docId tabId) srv))
    !! snd (resolve (sessionKey docId tabId) srv)
  = Some (sessionKey docId tabId, session) ->
  on_connection ws req redis srv
  = Returned
      (mkServer
         (sessions (fst (resolve (sessionKey docId tabId) srv)))
         (objects (update_object (snd (resolve (sessionKey docId tabId) srv))
                     (fst (fst (addUser ws userId (js_or finalRole "viewer")
                                        session)))
                     (fst (resolve (sessionKey docId tabId) srv))))
         (<[ws := (snd (resolve (sessionKey docId tabId) srv),
                   snd (fst (addUser ws userId (js_or finalRole "viewer")
                                     session)))]>
            (sockets (fst (resolve (sessionKey docId tabId) srv)))))
      (snd (addUser ws userId (js_or finalRole "viewer") session)).
Proof.
  intros D T U N1 N2 N3 A O. unfold on_connection.
  rewrite (handshake_complete req docId tabId userId) by assumption.
  rewrite D, T, U. simpl. rewrite A.
  destruct (resolve (sessionKey docId tabId) srv) as [srv1 ref]. simpl in *.
  rewrite O.
  destruct (addUser ws userId (js_or finalRole "viewer") session)
    as [[session' cid] acts].
  reflexivity.
Qed.

Lemma run_sessions (es : list Event) (srv srv' : Server) (key : string)
  (ref : nat) :
  run es srv = Some srv' ->
  sessions srv !! key = Some ref -> sessions srv' !! key = Some ref.
Proof.
  revert srv. induction es as [|e es IH]; intros srv; simpl.
  - intros E Q. inversion E; subst. exact Q.
  - destruct (handle e srv) as [srv1 acts|] eqn:H; [|discriminate].
    intros E Q. apply (IH srv1 E).
    destruct (handle_sessions e srv srv1 acts H)
      as [S|(ws & req & redis & docId & tabId & userId & _ & _ & _ & _ & _ & S)];
      rewrite S; [exact Q|].
    apply resolve_sessions. left. exact Q.
Qed.

(** C10 (amended): the registry starts empty, and a session is created
    lazily: a complete handshake that passes the access gate for a
    (document, tab) key the registry does not hold makes the handler
    construct a new session object, register it under the key and hand
    the connection to it; a key enters the registry in no other way.  Once
    registered the session stays: whatever connection, frame, close and
    timer events the process then handles, the key keeps the same
    object, whether or not the session still has connections. *)
Theorem session_registry_lifecycle (srv : Server) (key : string) :
  reachable srv ->
  sessions initial_server !! key = None
  /\ (forall ws req redis docId tabId userId finalRole,
        q_docId req = Some docId -> q_tabId req = Some tabId ->
        q_userId req = Some userId ->
        docId <> "" -> tabId <> "" -> userId <> "" ->
        access_gate redis docId userId = Granted finalRole ->
        key = sessionKey docId tabId ->
        sessions srv !! key = None ->
        exists srv',
          on_connection ws req redis srv
          = Returned srv'
              (snd (addUser ws userId (js_or finalRole "viewer")
                            (new_DocumentSession key)))
          /\ sessions srv' = <[key := length (objects srv)]> (sessions srv)
          /\ objects srv' !! length (objects srv)
             = Some (key,
                     fst (fst (addUser ws userId (js_or finalRole "viewer")
                                       (new_DocumentSession key))))
          /\ sockets srv' !! ws
             = Some (length (objects srv),
                     snd (fst (addUser ws userId (js_or finalRole "viewer")
                                       (new_DocumentSession key)))))
  /\ (forall e srv' acts ref,
        handle e srv = Returned srv' acts ->
        sessions srv !! key = None ->
        sessions srv' !! key = Some ref ->
        exists ws req redis docId tabId userId,
          e = EConnection ws req redis
          /\ q_docId req = Some docId /\ q_tabId req = Some tabId
          /\ q_userId req = Some userId
          /\ key = sessionKey docId tabId
          /\ access_gate redis docId userId <> Denied
          /\ ref = length (objects srv))
  /\ (forall ref es srv',
        sessions srv !! key = Some ref ->
        run es srv = Some srv' ->
        sessions srv' !! key = Some ref
        /\ key_of srv' ref = Some key).
Proof.
  intros R. split; [apply lookup_empty|]. split; [|split].
  - intros ws req redis docId tabId userId finalRole D T U N1 N2 N3 A -> Q.
    assert (Res : resolve (sessionKey docId tabId) srv
                  = (mkServer (<[sessionKey docId tabId := length (objects srv)]>
                                 (sessions srv))
                              (objects srv
                               ++ [(sessionKey docId tabId,
                                    new_DocumentSession (sessionKey docId tabId))])
                              (sockets srv),
                     length (objects srv)))
      by (unfold resolve; rewrite Q; reflexivity).
    eexists. split.
    + rewrite (on_connection_granted ws req redis srv docId tabId userId
                 finalRole (new_DocumentSession (sessionKey docId tabId)));
        try assumption; [reflexivity|].
      rewrite Res. simpl. rewrite lookup_app_r by lia.
      rewrite Nat.sub_diag. reflexivity.
    + rewrite Res. simpl. split; [reflexivity|]. split.
      * rewrite list_lookup_alter_eq, lookup_app_r by lia.
        rewrite Nat.sub_diag. reflexivity.
      * apply lookup_insert_eq.
  - intros e srv' acts ref H N Q.
    destruct (handle_sessions e srv srv' acts H)
      as [S|(ws & req & redis & docId & tabId & userId & E & D & T & U & A & S)];
      rewrite S in Q; [congruence|].
    apply resolve_sessions in Q as [Q|(K & _ & L)]; [congruence|].
    exists ws, req, redis, docId, tabId, userId. repeat split; assumption.
  - intros ref es srv' Q E.
    assert (Q' : sessions srv' !! key = Some ref)
      by (apply (run_sessions es srv srv' key ref E Q)).
    split; [exact Q'|].
    apply reachable_inv in R.
    destruct (run_inv es srv srv' R E) as (I1 & _). apply I1. exact Q'.
Qed.

End GatewayHandlers.

(** ** The gateway on concrete traces *)

Lemma demo_reachable : reachable demo_server.
Proof. exists demo_trace. vm_compute. reflexivity. Defined.

Lemma connected_reachable : reachable connected_server.
Proof.
  exists [EConnection 1 (handshake "d1" "t1" "alice") demo_redis].
  vm_compute. reflexivity.
Defined.

Lemma one_session_per_key_witness :
  reachable demo_server
  /\ (forall r1 r2,
        key_of demo_server r1 = Some (sessionKey "d1" "t1") ->
        key_of demo_server r2 = Some (sessionKey "d1" "t1") ->
        r1 = r2 /\ sessions demo_server !! sessionKey "d1" "t1" = Some r1).
Proof.
  split; [exact demo_reachable|].
  exact (proj1 (proj2 (proj2
           (one_session_per_key demo_server "d1" "t1" demo_reachable)))).
Defined.

(** The frame "hello" on the socket of alice: nothing is sent, and the
    event loop does not reach the close of the socket. *)
Lemma malformed_frame_ends_process_witness :
  on_message 1 "hello" connected_server = Uncaught "SyntaxError" []
  /\ run [EMessage 1 "hello"; EClose 1] connected_server = None.
Proof.
  apply (malformed_frame_ends_process 1 "hello" connected_server 0 1
           [EClose 1]);
    vm_compute; reflexivity.
Defined.

(** C9, as stated, fails on the handler: the refused connection of eve is
    closed without a close code, not with 4001. *)
Lemma access_denied_close_code :
  access_gate demo_redis "d1" "eve" = Denied
  /\ on_connection 9 (handshake "d1" "t1" "eve") demo_redis
                   (@initial_server Presence)
     = Returned initial_server
         [Send 9 (JSON_stringify access_denied); Close 9 None]
  /\ ~ In (Close 9 (Some 4001))
          (actions_of (on_connection 9 (handshake "d1" "t1" "eve") demo_redis
                                     (@initial_server Presence))).
Proof.
  split; [vm_compute; reflexivity|].
  split; [vm_compute; reflexivity|].
  vm_compute. intros [H|[H|[]]]; discriminate.
Qed.

Lemma access_denied_reply_witness :
  on_connection 9 (handshake "d1" "t1" "eve") demo_redis connected_server
  = Returned connected_server
      [Send 9 (JSON_stringify access_denied); Close 9 None]
  /\ JSON_parse (JSON_stringify access_denied)
     = Some (JObject [("type", JString "error");
                      ("message", JString "Access Denied.")]).
Proof.
  apply (access_denied_reply 9 (handshake "d1" "t1" "eve") demo_redis
           connected_server "d1" "t1" "eve");
    try reflexivity; try discriminate.
Defined.

(** C10, as stated, fails on the gateway: after both connections to tab t1
    of d1 have closed and a timer of its session has fired, the session has
    no connection left and is still the one the registry holds for the
    key. *)
Lemma session_outlives_connections :
  run demo_trace initial_server = Some demo_server
  /\ sockets demo_server !! 1 = None
  /\ sockets demo_server !! 2 = None
  /\ objects demo_server !! 0 = Some (sessionKey "d1" "t1", [])
  /\ sessions demo_server !! sessionKey "d1" "t1" = Some 0.
Proof. vm_compute. repeat split; reflexivity. Qed.

(** On the server alice is connected to: the first connection to tab t2 of
    d1 creates and registers its session, and the session of tab t1 stays
    registered through every run of the process. *)
Lemma session_registry_lifecycle_witness :
  (exists srv',
     on_connection 2 (handshake "d1" "t2" "bob") demo_redis connected_server
     = Returned srv' []
     /\ sessions srv' !! sessionKey "d1" "t2" = Some 1
     /\ objects srv' !! 1 = Some (sessionKey "d1" "t2", [(2, "bob", "editor")]))
  /\ (forall es srv',
        run es connected_server = Some srv' ->
        sessions srv' !! sessionKey "d1" "t1" = Some 0
        /\ key_of srv' 0 = Some (sessionKey "d1" "t1")).
Proof.
  split.
  - destruct (session_registry_lifecycle connected_server
                (sessionKey "d1" "t2") connected_reachable)
      as (_ & Create & _).
    destruct (Create 2 (handshake "d1" "t2" "bob") demo_redis "d1" "t2" "bob"
                (Some "editor"))
      as (srv' & E & S & O & _); try reflexivity; try discriminate.
    exists srv'. split; [exact E|]. split; [|exact O].
    rewrite S. reflexivity.
  - intros es srv' E.
    destruct (session_registry_lifecycle connected_server
                (sessionKey "d1" "t1") connected_reachable)
      as (_ & _ & _ & Stay).
    apply (Stay 0 es srv'); [reflexivity | exact E].
Defined.

(** * Properties of the REST endpoints *)

Import Rest.

(** ** The store *)

Lemma hget_hset (m : gmap string (gmap string string))
  (key field value key' field' : string) :
  redis_hget (redis_hset m key field value) key' field'
  = if decide (key = key' /\ field = field') then Some value
    else redis_hget m key' field'.
Proof.
  unfold redis_hget, redis_hset.
  destruct (decide (key = key')) as [->|N].
  - rewrite lookup_insert_eq. simpl.
    destruct (decide (field = field')) as [->|F].
    + rewrite lookup_insert_eq, decide_True by auto. reflexivity.
    + rewrite lookup_insert_ne, decide_False by tauto.
      destruct (m !! key'); reflexivity.
  - rewrite lookup_insert_ne, decide_False by tauto. reflexivity.
Qed.

Lemma hget_hdel (m : gmap string (gmap string string))
  (key field key' field' : string) :
  redis_hget (redis_hdel m key field) key' field'
  = if decide (key = key' /\ field = field') then None
    else redis_hget m key' field'.
Proof.
  unfold redis_hget, redis_hdel.
  destruct (m !! key) as [h|] eqn:E.
  - destruct (decide (delete field h = ∅)) as [D|D].
    + destruct (decide (key = key')) as [<-|N].
      * rewrite lookup_delete_eq, E. simpl.
        destruct (decide (field = field')) as [<-|F].
        -- rewrite decide_True by auto. reflexivity.
        -- rewrite decide_False by tauto.
           rewrite <- (lookup_delete_ne h field field' F), D, lookup_empty.
           reflexivity.
      * rewrite lookup_delete_ne, decide_False by tauto. reflexivity.
    + destruct (decide (key = key')) as [<-|N].
      * rewrite lookup_insert_eq, E. simpl.
        destruct (decide (field = field')) as [<-|F].
        -- rewrite decide_True by auto. apply lookup_delete_eq.
        -- rewrite decide_False by tauto. apply lookup_delete_ne. exact F.
      * rewrite lookup_insert_ne, decide_False by tauto. reflexivity.
  - case_decide as D; [|reflexivity].
    destruct D as [<- _]. rewrite E. reflexivity.
Qed.

Lemma string_length_list (s : string) :
  String.length s = length (list_ascii_of_string s).
Proof. induction s as [|c s IH]; simpl; congruence. Qed.

(** ** The password check *)

Lemma classes_disjoint (c : ascii) :
  (is_upper c = true -> is_lower c = false /\ is_special c = false)
  /\ (is_lower c = true -> is_special c = false).
Proof.
  destruct c as [[] [] [] [] [] [] [] []]; vm_compute; repeat split;
    intros; congruence.
Qed.

(** A password that passes the check of signup and reset has at least
    three characters, one of each class; and three are enough. *)
Theorem strong_password_three (password : string) :
  strong_password password = true ->
  3 <= String.length password
  /\ (exists u l s,
        u ∈ list_ascii_of_string password
        /\ l ∈ list_ascii_of_string password
        /\ s ∈ list_ascii_of_string password
        /\ is_upper u = true /\ is_lower l = true /\ is_special s = true
        /\ u <> l /\ u <> s /\ l <> s).
Proof.
  unfold strong_password, regex_test. rewrite string_length_list.
  set (cs := list_ascii_of_string password). intros H.
  apply andb_true_iff in H as [H Hs]. apply andb_true_iff in H as [Hu Hl].
  apply existsb_exists in Hu as (u & Iu & Pu).
  apply existsb_exists in Hl as (l & Il & Pl).
  apply existsb_exists in Hs as (s & Is & Ps).
  destruct (classes_disjoint u) as [Du _]. destruct (Du Pu) as [Dul Dus].
  destruct (classes_disjoint l) as [_ Dl]. specialize (Dl Pl).
  assert (Nul : u <> l) by congruence.
  assert (Nus : u <> s) by congruence.
  assert (Nls : l <> s) by congruence.
  apply list_elem_of_In in Iu, Il, Is.
  split; [|exists u, l, s; repeat split; assumption].
  destruct cs as [|a [|b [|c cs]]]; simpl; try lia.
  - inversion Iu.
  - apply list_elem_of_singleton in Iu, Il. congruence.
  - rewrite !elem_of_cons in Iu, Il, Is.
    assert (E : forall x, x = a \/ x = b \/ x ∈ [] -> x = a \/ x = b)
      by (intros x [?|[?|Q]]; auto; inversion Q).
    apply E in Iu, Il, Is.
    destruct Iu, Il, Is; congruence.
Qed.

Example strong_password_examples :
  strong_password "aA!" = true
  /\ strong_password "Passw0rd" = false
  /\ strong_password "PASSWORD!" = false
  /\ strong_password "password!" = false.
Proof. vm_compute. repeat split; reflexivity. Qed.

Lemma strong_password_three_witness :
  3 <= String.length "aA!"
  /\ (exists u l s,
        u ∈ list_ascii_of_string "aA!"
        /\ l ∈ list_ascii_of_string "aA!"
        /\ s ∈ list_ascii_of_string "aA!"
        /\ is_upper u = true /\ is_lower l = true /\ is_special s = true
        /\ u <> l /\ u <> s /\ l <> s).
Proof. apply (strong_password_three "aA!"). reflexivity. Defined.

(** ** Accounts *)

Section AccountFacts.
Context `{L : Libraries}.

Lemma falsy_Some (s : string) : falsy (Some s) = false <-> s <> "".
Proof. simpl. apply String.eqb_neq. Qed.

Lemma falsy_false (v : option string) :
  falsy v = false -> exists s, v = Some s /\ s <> "".
Proof.
  destruct v as [s|]; [|discriminate].
  intros F. exists s. split; [reflexivity|]. apply falsy_Some. exact F.
Qed.

Lemma signup_cases (salt : string) (email password : option string)
  (st : Store) :
  (status (snd (signup salt email password st)) <> 200 ->
   fst (signup salt email password st) = st)
  /\ (status (snd (signup salt email password st)) = 200 ->
      exists e p,
        email = Some e /\ password = Some p /\ e <> "" /\ p <> ""
        /\ strong_password p = true
        /\ falsy (user_auth st !! e) = true
        /\ (forall reason typoSource,
              validate e (useStrict e) <> Invalid reason typoSource)
        /\ fst (signup salt email password st)
           = set_auth e (bcrypt_hash p salt) st
        /\ body (snd (signup salt email password st)) = BSuccessUser e).
Proof.
  unfold signup.
  destruct (falsy email) eqn:Fe; [split; [reflexivity|discriminate]|].
  destruct (falsy password) eqn:Fp; [split; [reflexivity|discriminate]|].
  apply falsy_false in Fe as (e & -> & Ne).
  apply falsy_false in Fp as (p & -> & Np). simpl.
  destruct (strong_password p) eqn:S; simpl;
    [|split; [reflexivity|discriminate]].
  destruct (validate e (useStrict e)) eqn:V;
    try (split; [reflexivity|discriminate]);
    destruct (falsy (user_auth st !! e)) eqn:F; simpl;
    try (split; [reflexivity|discriminate]);
    (split; [intros N; contradiction|]);
    intros _; exists e, p; repeat split; auto; intros; congruence.
Qed.

(** Signup writes nothing unless it answers 200, and then it writes one
    thing: the hash of the password under the address, for an address
    that had no credentials, that the validator did not refuse, and a
    password that passes the check. *)
Theorem signup_effect (salt : string) (email password : option string)
  (st : Store) :
  (status (snd (signup salt email password st)) <> 200 ->
   fst (signup salt email password st) = st)
  /\ (status (snd (signup salt email password st)) = 200 ->
      exists e p,
        email = Some e /\ password = Some p /\ e <> "" /\ p <> ""
        /\ strong_password p = true
        /\ falsy (user_auth st !! e) = true
        /\ (forall reason typoSource,
              validate e (useStrict e) <> Invalid reason typoSource)
        /\ fst (signup salt email password st)
           = set_auth e (bcrypt_hash p salt) st
        /\ body (snd (signup salt email password st)) = BSuccessUser e).
Proof. apply signup_cases. Qed.

(** An account that exists is never re-registered: whatever the request
    for its address, signup leaves the store as it was and does not answer
    200. *)
Theorem signup_keeps_existing (salt : string) (e h : string)
  (password : option string) (st : Store) :
  user_auth st !! e = Some h -> h <> "" ->
  fst (signup salt (Some e) password st) = st
  /\ status (snd (signup salt (Some e) password st)) <> 200.
Proof.
  intros H N.
  destruct (signup_cases salt (Some e) password st) as [A B].
  assert (S : status (snd (signup salt (Some e) password st)) <> 200).
  { intros Q. destruct (B Q) as (e' & p & E & _ & _ & _ & _ & F & _).
    inversion E; subst e'. rewrite H in F.
    apply falsy_Some in N. congruence. }
  split; [apply A; exact S | exact S].
Qed.

(** After a signup that answered 200, the same address and password log
    in. *)
Theorem signup_then_login (salt : string) (email password : option string)
  (st : Store) :
  bcrypt_sound ->
  status (snd (signup salt email password st)) = 200 ->
  login email password (fst (signup salt email password st))
  = (fst (signup salt email password st),
     ok (BSuccessUser (default "" email))).
Proof.
  intros [Bc Bn] S.
  destruct (signup_cases salt email password st) as [_ B].
  destruct (B S) as (e & p & -> & -> & Ne & Np & _ & _ & _ & E & _).
  rewrite E. unfold login, set_auth; simpl.
  apply String.eqb_neq in Ne, Np. rewrite Ne, Np. simpl.
  rewrite lookup_insert_eq. simpl.
  specialize (Bn p salt). apply String.eqb_neq in Bn. rewrite Bn. simpl.
  rewrite Bc. reflexivity.
Qed.

(** The validator fails open: when it throws, the address is taken as
    valid and the account is registered. *)
Theorem signup_validator_throws (salt e p : string) (st : Store) :
  e <> "" -> p <> "" -> strong_password p = true ->
  falsy (user_auth st !! e) = true ->
  validate e (useStrict e) = ValidationThrows ->
  signup salt (Some e) (Some p) st
  = (set_auth e (bcrypt_hash p salt) st, ok (BSuccessUser e)).
Proof.
  intros Ne Np S F V. unfold signup. simpl.
  apply String.eqb_neq in Ne, Np. rewrite Ne, Np. simpl.
  rewrite S, V, F. reflexivity.
Qed.

(** Login never writes, and answers 200 only for an address with stored
    credentials that bcrypt matches with the password. *)
Theorem login_effect (email password : option string) (st : Store) :
  fst (login email password st) = st
  /\ (status (snd (login email password st)) = 200 ->
      exists e p h,
        email = Some e /\ password = Some p
        /\ user_auth st !! e = Some h /\ h <> ""
        /\ bcrypt_compare p h = true
        /\ body (snd (login email password st)) = BSuccessUser e)
  /\ (forall e, email = Some e -> e <> "" -> falsy password = false ->
      falsy (user_auth st !! e) = true ->
      snd (login email password st) = fail 401 "User not found.").
Proof.
  unfold login. split; [|split].
  - repeat case_match; reflexivity.
  - destruct (falsy email) eqn:Fe; [discriminate|].
    destruct (falsy password) eqn:Fp; [discriminate|].
    apply falsy_false in Fe as (e & -> & Ne).
    apply falsy_false in Fp as (p & -> & Np). simpl.
    destruct (falsy (user_auth st !! e)) eqn:F; [discriminate|].
    apply falsy_false in F as (h & H & Nh). rewrite H. simpl.
    destruct (bcrypt_compare p h) eqn:Cmp; [|discriminate].
    intros _. exists e, p, h. repeat split; auto.
  - intros e -> Ne Fp F. simpl.
    apply String.eqb_neq in Ne. rewrite Ne, Fp, F. reflexivity.
Qed.

(** Asking for a reset of an unknown address stores nothing; for an
    account it stores the token for the address, whether or not the mail
    could be sent. *)
Theorem forgot_password_effect (token : string) (mailed : bool) (e : string)
  (st : Store) :
  e <> "" ->
  (falsy (user_auth st !! e) = true ->
   forgot_password token mailed (Some e) st
   = (st, ok (BSuccessMessage "If account exists, email sent.")))
  /\ (falsy (user_auth st !! e) = false ->
      reset_token (fst (forgot_password token mailed (Some e) st)) !! token
      = Some e
      /\ user_auth (fst (forgot_password token mailed (Some e) st))
         = user_auth st
      /\ status (snd (forgot_password token mailed (Some e) st))
         = if mailed then 200 else 500).
Proof.
  intros Ne. unfold forgot_password. simpl.
  apply String.eqb_neq in Ne. rewrite Ne.
  split; intros F; rewrite F; [reflexivity|].
  destruct mailed; simpl; rewrite lookup_insert_eq; repeat split.
Qed.

(** A reset writes nothing unless it answers 200; then the store it
    leaves is the one it found with two changes, the hash of the new
    password under the address the token was issued for, and the token
    gone: documents, document lists, tabs, the other credentials and the
    other tokens are as they were. *)
Theorem reset_password_effect (salt : string) (token newPassword : option string)
  (st : Store) :
  (status (snd (reset_password salt token newPassword st)) <> 200 ->
   fst (reset_password salt token newPassword st) = st)
  /\ (status (snd (reset_password salt token newPassword st)) = 200 ->
      exists t p e,
        token = Some t /\ newPassword = Some p
        /\ reset_token st !! t = Some e /\ e <> ""
        /\ strong_password p = true
        /\ reset_password salt token newPassword st
           = (mkStore (docs st) (user_docs st) (doc_tabs st)
                      (<[e := bcrypt_hash p salt]> (user_auth st))
                      (delete t (reset_token st)),
              ok (BSuccessMessage "Password updated successfully!"))).
Proof.
  unfold reset_password.
  destruct (falsy token) eqn:Ft; [split; [reflexivity|discriminate]|].
  destruct (falsy newPassword) eqn:Fp; [split; [reflexivity|discriminate]|].
  apply falsy_false in Ft as (t & -> & Nt).
  apply falsy_false in Fp as (p & -> & Np). simpl.
  destruct (falsy (reset_token st !! t)) eqn:F;
    [split; [reflexivity|discriminate]|].
  apply falsy_false in F as (e & E & Ne). rewrite E. simpl.
  destruct (strong_password p) eqn:S; simpl;
    [|split; [reflexivity|discriminate]].
  split; [intros N; contradiction|].
  intros _. exists t, p, e. repeat split; auto.
Qed.

(** The reset flow end to end: the token issued for an account lets its
    holder set a new password once; the new password then logs in, and the
    token is refused when it is presented again. *)
Theorem reset_flow (token salt e p : string) (mailed : bool) (st : Store) :
  bcrypt_sound ->
  e <> "" -> token <> "" -> p <> "" -> strong_password p = true ->
  falsy (user_auth st !! e) = false ->
  let st1 := fst (forgot_password token mailed (Some e) st) in
  let st2 := fst (reset_password salt (Some token) (Some p) st1) in
  snd (reset_password salt (Some token) (Some p) st1)
  = ok (BSuccessMessage "Password updated successfully!")
  /\ login (Some e) (Some p) st2 = (st2, ok (BSuccessUser e))
  /\ reset_password salt (Some token) (Some p) st2
     = (st2, fail 400 "Invalid or expired token.").
Proof.
  intros [Bc Bn] Ne Nt Np S F. simpl.
  unfold forgot_password. simpl.
  pose proof Ne as Ne'. apply String.eqb_neq in Ne'. rewrite Ne', F.
  assert (R : forall m : Store, fst (if mailed
                  then (m, ok (BSuccessMessage "Email sent!"))
                  else (m, fail 500 "Failed to send email. Check server logs."))
              = m) by (intros m; destruct mailed; reflexivity).
  rewrite R. unfold reset_password. simpl.
  apply String.eqb_neq in Nt, Np. rewrite Nt, Np. simpl.
  rewrite lookup_insert_eq. simpl. rewrite Ne', S. simpl.
  split; [reflexivity|]. split.
  - unfold login. simpl. rewrite Ne', Np. simpl.
    rewrite lookup_insert_eq. simpl.
    specialize (Bn p salt). apply String.eqb_neq in Bn. rewrite Bn. simpl.
    rewrite Bc. reflexivity.
  - rewrite lookup_delete_eq. reflexivity.
Qed.

End AccountFacts.

Lemma toy_sound : @bcrypt_sound Toy.
Proof.
  split; simpl.
  - intros password _. apply String.eqb_refl.
  - intros password _. discriminate.
Qed.

Lemma signup_keeps_existing_witness :
  fst (signup "s2" (Some "alice@example.org") (Some "bB?") account_store)
  = account_store
  /\ status (snd (signup "s2" (Some "alice@example.org") (Some "bB?")
                         account_store)) <> 200.
Proof.
  apply (signup_keeps_existing "s2" "alice@example.org" "$2a$10$aA!");
    [vm_compute; reflexivity | discriminate].
Defined.

Lemma signup_then_login_witness :
  login (Some "alice@example.org") (Some "aA!")
        (fst (signup "salt" (Some "alice@example.org") (Some "aA!") empty_store))
  = (fst (signup "salt" (Some "alice@example.org") (Some "aA!") empty_store),
     ok (BSuccessUser "alice@example.org")).
Proof.
  apply (signup_then_login "salt" (Some "alice@example.org") (Some "aA!")
           empty_store toy_sound).
  vm_compute. reflexivity.
Defined.

Lemma signup_validator_throws_witness :
  @signup Throwing "salt" (Some "x@nowhere") (Some "aA!") empty_store
  = (set_auth "x@nowhere" (@bcrypt_hash Throwing "aA!" "salt") empty_store,
     ok (BSuccessUser "x@nowhere")).
Proof.
  apply (@signup_validator_throws Throwing "salt" "x@nowhere" "aA!" empty_store);
    try discriminate; reflexivity.
Defined.

Lemma forgot_password_effect_witness :
  (falsy (user_auth account_store !! "alice@example.org") = true ->
   forgot_password "t1" false (Some "alice@example.org") account_store
   = (account_store, ok (BSuccessMessage "If account exists, email sent.")))
  /\ (falsy (user_auth account_store !! "alice@example.org") = false ->
      reset_token (fst (forgot_password "t1" false (Some "alice@example.org")
                                        account_store)) !! "t1"
      = Some "alice@example.org"
      /\ user_auth (fst (forgot_password "t1" false (Some "alice@example.org")
                                         account_store))
         = user_auth account_store
      /\ status (snd (forgot_password "t1" false (Some "alice@example.org")
                                      account_store))
         = 500).
Proof.
  apply (forgot_password_effect "t1" false "alice@example.org" account_store).
  discriminate.
Defined.

Lemma reset_flow_witness :
  snd (reset_password "s2" (Some "t1") (Some "bB?")
         (fst (forgot_password "t1" true (Some "alice@example.org")
                               account_store)))
  = ok (BSuccessMessage "Password updated successfully!")
  /\ login (Some "alice@example.org") (Some "bB?")
       (fst (reset_password "s2" (Some "t1") (Some "bB?")
               (fst (forgot_password "t1" true (Some "alice@example.org")
                                     account_store))))
     = (fst (reset_password "s2" (Some "t1") (Some "bB?")
               (fst (forgot_password "t1" true (Some "alice@example.org")
                                     account_store))),
        ok (BSuccessUser "alice@example.org"))
  /\ reset_password "s2" (Some "t1") (Some "bB?")
       (fst (reset_password "s2" (Some "t1") (Some "bB?")
               (fst (forgot_password "t1" true (Some "alice@example.org")
                                     account_store))))
     = (fst (reset_password "s2" (Some "t1") (Some "bB?")
               (fst (forgot_password "t1" true (Some "alice@example.org")
                                     account_store))),
        fail 400 "Invalid or expired token.").
Proof.
  apply (reset_flow "t1" "s2" "alice@example.org" "bB?" true account_store
           toy_sound); try discriminate; reflexivity.
Defined.

(** ** Documents and sharing *)

Lemma isOwner_true (st : Store) (docId userId : string) :
  isOwner st docId userId = true
  <-> doc_owner (docs st) !! docId = Some userId.
Proof. unfold isOwner, redis_get. apply strict_eq_true. Qed.

(** Creating a document always succeeds and makes the caller its only
    owner, whoever owned the id before: the gate then admits the caller as
    owner, link sharing is back to "none" so that users without a role in
    the ACL are refused, and one more "Sheet 1" is appended to the tabs. *)
Theorem create_doc_takes_ownership (userId docId : string) (st : Store) :
  snd (create_doc userId docId st) = ok BSuccess
  /\ (forall u : string, isOwner (fst (create_doc userId docId st)) docId u
                         = String.eqb u userId)
  /\ access_gate (docs (fst (create_doc userId docId st))) docId userId
     = Granted (Some "owner")
  /\ (forall u, u <> userId ->
        falsy (redis_hget (doc_acl (docs st)) docId u) = true ->
        access_gate (docs (fst (create_doc userId docId st))) docId u = Denied)
  /\ redis_lrange (doc_tabs (fst (create_doc userId docId st))) docId
     = redis_lrange (doc_tabs st) docId ++ ["Sheet 1"]
  /\ docId ∈ redis_smembers (user_docs (fst (create_doc userId docId st)))
                            userId.
Proof.
  simpl. repeat split.
  - unfold isOwner, redis_get. simpl. rewrite lookup_insert_eq. reflexivity.
  - unfold access_gate, authorize, redis_get. simpl.
    rewrite lookup_insert_eq. simpl. rewrite String.eqb_refl. reflexivity.
  - intros u N F. unfold access_gate, authorize, redis_get. simpl.
    rewrite lookup_insert_eq. simpl.
    apply String.eqb_neq in N. rewrite N. simpl.
    rewrite !hget_hset.
    rewrite decide_False by (intros [_ E]; apply String.eqb_neq in N; congruence).
    rewrite F, decide_True by auto. reflexivity.
  - unfold redis_lrange, redis_rpush. rewrite lookup_insert_eq. reflexivity.
  - unfold redis_smembers, redis_sadd. rewrite lookup_insert_eq. simpl.
    set_solver.
Qed.

Lemma isOwner_null (st : Store) (docId : string) :
  isOwner st docId FNull = true <-> doc_owner (docs st) !! docId = None.
Proof.
  unfold isOwner, redis_get.
  destruct (doc_owner (docs st) !! docId); split; congruence.
Qed.

(** The sharing endpoints compare the [ownerId] of the body with the
    stored owner and check nothing else.  They answer 403 and leave the
    store as it was when [ownerId] is a string other than the stored
    owner, when it is [null] and the document has an owner, and when it
    is anything else. *)
Theorem sharing_needs_owner (docId : string) (ownerId : BodyField)
  (email role linkAccess : string) (st : Store) :
  (forall s, ownerId = FString s -> doc_owner (docs st) !! docId <> Some s) ->
  (ownerId = FNull -> is_Some (doc_owner (docs st) !! docId)) ->
  add_user docId ownerId email role st = (st, fail 403 "Not owner")
  /\ remove_user docId ownerId email st = (st, fail 403 "Not owner")
  /\ link_settings docId ownerId linkAccess st = (st, fail 403 "Not owner").
Proof.
  intros N1 N2.
  assert (O : isOwner st docId ownerId = false).
  { destruct (isOwner st docId ownerId) eqn:E; [|reflexivity].
    destruct ownerId as [s| |].
    - apply isOwner_true in E. destruct (N1 s eq_refl E).
    - apply isOwner_null in E. destruct (N2 eq_refl) as [o Q]. congruence.
    - discriminate. }
  unfold add_user, remove_user, link_settings. rewrite O. repeat split.
Qed.

(** A document without owner is open to whoever sends [ownerId: null]:
    [redis.get] answers [null] for the missing owner key, [null === null]
    passes the owner check, and the sharing endpoints write the ACL entry
    and the link setting, with which the gate of the handshake then
    admits the user; the document still has no owner. *)
Theorem null_owner_shares_unowned_document (docId email role linkAccess u : string)
  (st : Store) :
  doc_owner (docs st) !! docId = None ->
  role <> "" -> linkAccess <> "" -> linkAccess <> "none" ->
  falsy (redis_hget (doc_acl (docs st)) docId u) = true ->
  snd (add_user docId FNull email role st) = ok BSuccess
  /\ access_gate (docs (fst (add_user docId FNull email role st))) docId email
     = Granted (Some role)
  /\ doc_owner (docs (fst (add_user docId FNull email role st))) !! docId = None
  /\ snd (link_settings docId FNull linkAccess st) = ok BSuccess
  /\ access_gate (docs (fst (link_settings docId FNull linkAccess st))) docId u
     = Granted (Some linkAccess)
  /\ snd (remove_user docId FNull email st) = ok BSuccess.
Proof.
  intros O Nr Nl1 Nl2 F.
  unfold add_user, link_settings, remove_user.
  rewrite (proj2 (isOwner_null st docId) O). simpl.
  unfold access_gate, authorize, redis_get. simpl. rewrite O. simpl.
  rewrite !hget_hset. rewrite decide_True by auto. rewrite decide_True by auto.
  rewrite F. simpl.
  apply String.eqb_neq in Nr, Nl1, Nl2. rewrite Nr, Nl1. simpl.
  rewrite Nl2. simpl. repeat split.
Qed.

(** Sharing then connecting: once the owner has given a user a role, the
    gate admits that user to the document with that role, the document is
    in the user's list, and the gate answers as before for every other
    user and every other document. *)
Theorem share_then_connect (docId ownerId email role : string) (st : Store) :
  doc_owner (docs st) !! docId = Some ownerId ->
  email <> ownerId -> role <> "" ->
  snd (add_user docId ownerId email role st) = ok BSuccess
  /\ access_gate (docs (fst (add_user docId ownerId email role st))) docId email
     = Granted (Some role)
  /\ docId ∈ redis_smembers
               (user_docs (fst (add_user docId ownerId email role st))) email
  /\ (forall d u, d <> docId \/ u <> email ->
        access_gate (docs (fst (add_user docId ownerId email role st))) d u
        = access_gate (docs st) d u).
Proof.
  intros O Ne Nr. unfold add_user.
  rewrite (proj2 (isOwner_true st docId ownerId) O). simpl.
  repeat split.
  - unfold access_gate, authorize, redis_get. simpl. rewrite O. simpl.
    apply String.eqb_neq in Ne. rewrite Ne. simpl.
    rewrite hget_hset, decide_True by auto.
    rewrite (falsy_nonempty role Nr). reflexivity.
  - unfold redis_smembers, redis_sadd. rewrite lookup_insert_eq. simpl.
    set_solver.
  - intros d u N. unfold access_gate. simpl.
    rewrite hget_hset, decide_False by (intros [? ?]; destruct N; congruence).
    reflexivity.
Qed.

(** Removing a user's role leaves them what link sharing gives: refused
    when it is off, the link role otherwise; the document stays in the
    user's list. *)
Theorem unshare_then_connect (docId ownerId email : string) (st : Store) :
  doc_owner (docs st) !! docId = Some ownerId ->
  email <> ownerId ->
  snd (remove_user docId ownerId email st) = ok BSuccess
  /\ access_gate (docs (fst (remove_user docId ownerId email st))) docId email
     = (if String.eqb (js_or (redis_hget (doc_settings (docs st)) docId
                                         "link_access") "none") "none"
        then Denied
        else Granted (Some (js_or (redis_hget (doc_settings (docs st)) docId
                                              "link_access") "none")))
  /\ user_docs (fst (remove_user docId ownerId email st)) = user_docs st
  /\ (forall d u, d <> docId \/ u <> email ->
        access_gate (docs (fst (remove_user docId ownerId email st))) d u
        = access_gate (docs st) d u).
Proof.
  intros O Ne. unfold remove_user.
  rewrite (proj2 (isOwner_true st docId ownerId) O). simpl.
  repeat split.
  - unfold access_gate, authorize, redis_get. simpl. rewrite O. simpl.
    apply String.eqb_neq in Ne. rewrite Ne. simpl.
    rewrite hget_hdel, decide_True by auto. simpl.
    destruct (String.eqb _ "none"); reflexivity.
  - intros d u N. unfold access_gate. simpl.
    rewrite hget_hdel, decide_False by (intros [? ?]; destruct N; congruence).
    reflexivity.
Qed.

(** Link sharing set by the owner decides for every user who is neither
    the owner nor in the ACL: refused when it is set to "none" or to the
    empty string, admitted with the link role otherwise. *)
Theorem link_settings_then_connect (docId ownerId linkAccess u : string)
  (st : Store) :
  doc_owner (docs st) !! docId = Some ownerId ->
  u <> ownerId ->
  falsy (redis_hget (doc_acl (docs st)) docId u) = true ->
  snd (link_settings docId ownerId linkAccess st) = ok BSuccess
  /\ access_gate (docs (fst (link_settings docId ownerId linkAccess st))) docId u
     = (if String.eqb linkAccess "" || String.eqb linkAccess "none"
        then Denied else Granted (Some linkAccess)).
Proof.
  intros O Ne F. unfold link_settings.
  rewrite (proj2 (isOwner_true st docId ownerId) O). simpl.
  split; [reflexivity|].
  unfold access_gate, authorize, redis_get. simpl. rewrite O. simpl.
  apply String.eqb_neq in Ne. rewrite Ne, F. simpl.
  rewrite hget_hset, decide_True by auto. simpl.
  destruct (String.eqb_spec linkAccess ""); [reflexivity|]. simpl.
  destruct (String.eqb linkAccess "none"); reflexivity.
Qed.

(** Listing the tabs never answers an empty list: a document without tabs
    gets "Sheet 1" on the way; and asking again gives the same answer and
    writes nothing. *)
Theorem get_tabs_never_empty (docId : string) (st : Store) :
  exists tabs,
    snd (get_tabs docId st) = ok (BTabs tabs)
    /\ tabs <> []
    /\ redis_lrange (doc_tabs (fst (get_tabs docId st))) docId = tabs
    /\ (redis_lrange (doc_tabs st) docId <> [] -> fst (get_tabs docId st) = st)
    /\ get_tabs docId (fst (get_tabs docId st))
       = (fst (get_tabs docId st), ok (BTabs tabs)).
Proof.
  unfold get_tabs.
  destruct (redis_lrange (doc_tabs st) docId) as [|t ts] eqn:E.
  - exists ["Sheet 1"]. simpl.
    assert (R : redis_lrange (redis_rpush (doc_tabs st) docId "Sheet 1") docId
                = ["Sheet 1"]).
    { unfold redis_lrange, redis_rpush in *. rewrite lookup_insert_eq. simpl.
      rewrite E. reflexivity. }
    rewrite R. repeat split; auto. congruence.
  - exists (t :: ts). simpl. rewrite E. repeat split; auto.
Qed.

(** Tabs keep the order in which they were added: a new tab goes to the
    end of the list, no name is refused or merged, and the tabs of other
    documents are untouched. *)
Theorem add_tab_appends (docId tabName : string) (st : Store) :
  snd (get_tabs docId (fst (add_tab docId tabName st)))
  = ok (BTabs (redis_lrange (doc_tabs st) docId ++ [tabName]))
  /\ fst (get_tabs docId (fst (add_tab docId tabName st)))
     = fst (add_tab docId tabName st)
  /\ (forall d, d <> docId ->
        redis_lrange (doc_tabs (fst (add_tab docId tabName st))) d
        = redis_lrange (doc_tabs st) d).
Proof.
  unfold get_tabs, add_tab. simpl.
  assert (R : redis_lrange (redis_rpush (doc_tabs st) docId tabName) docId
              = redis_lrange (doc_tabs st) docId ++ [tabName]).
  { unfold redis_lrange, redis_rpush. rewrite lookup_insert_eq. reflexivity. }
  rewrite R.
  destruct (redis_lrange (doc_tabs st) docId ++ [tabName]) as [|t ts] eqn:E.
  - destruct (redis_lrange (doc_tabs st) docId); discriminate.
  - repeat split.
    intros d N. unfold redis_lrange, redis_rpush.
    rewrite lookup_insert_ne by congruence. reflexivity.
Qed.

Lemma sharing_needs_owner_witness :
  add_user "d1" "bob@example.org" "eve@example.org" "owner" shared_store
  = (shared_store, fail 403 "Not owner")
  /\ remove_user "d1" "bob@example.org" "eve@example.org" shared_store
     = (shared_store, fail 403 "Not owner")
  /\ link_settings "d1" "bob@example.org" "editor" shared_store
     = (shared_store, fail 403 "Not owner").
Proof.
  apply (sharing_needs_owner "d1" "bob@example.org" "eve@example.org" "owner"
           "editor" shared_store).
  - intros s E. inversion E; subst. vm_compute. discriminate.
  - discriminate.
Defined.

Lemma null_owner_shares_unowned_document_witness :
  snd (add_user "d9" FNull "eve@example.org" "editor" shared_store)
  = ok BSuccess
  /\ access_gate
       (docs (fst (add_user "d9" FNull "eve@example.org" "editor"
                            shared_store))) "d9" "eve@example.org"
     = Granted (Some "editor")
  /\ doc_owner (docs (fst (add_user "d9" FNull "eve@example.org" "editor"
                                    shared_store))) !! "d9" = None
  /\ snd (link_settings "d9" FNull "viewer" shared_store) = ok BSuccess
  /\ access_gate (docs (fst (link_settings "d9" FNull "viewer" shared_store)))
                 "d9" "carol@example.org"
     = Granted (Some "viewer")
  /\ snd (remove_user "d9" FNull "eve@example.org" shared_store) = ok BSuccess.
Proof.
  apply (null_owner_shares_unowned_document "d9" "eve@example.org" "editor"
           "viewer" "carol@example.org" shared_store);
    try discriminate; vm_compute; reflexivity.
Defined.

Lemma share_then_connect_witness :
  access_gate (docs shared_store) "d1" "bob@example.org"
  = Granted (Some "editor").
Proof.
  exact (proj1 (proj2
    (share_then_connect "d1" "alice@example.org" "bob@example.org" "editor"
       (fst (create_doc "alice@example.org" "d1" account_store))
       eq_refl ltac:(discriminate) ltac:(discriminate)))).
Defined.

Lemma unshare_then_connect_witness :
  access_gate
    (docs (fst (remove_user "d1" "alice@example.org" "bob@example.org"
                            shared_store))) "d1" "bob@example.org"
  = Denied
  /\ user_docs (fst (remove_user "d1" "alice@example.org" "bob@example.org"
                                 shared_store))
     = user_docs shared_store.
Proof.
  destruct (unshare_then_connect "d1" "alice@example.org" "bob@example.org"
              shared_store eq_refl ltac:(discriminate)) as (_ & G & U & _).
  split; [exact G | exact U].
Defined.

Lemma link_settings_then_connect_witness :
  access_gate
    (docs (fst (link_settings "d1" "alice@example.org" "viewer" shared_store)))
    "d1" "carol@example.org"
  = Granted (Some "viewer").
Proof.
  exact (proj2
    (link_settings_then_connect "d1" "alice@example.org" "viewer"
       "carol@example.org" shared_store eq_refl ltac:(discriminate) eq_refl)).
Defined.

(** * The gateway and the endpoints together *)

Lemma append_assoc (a b c : string) : (a +:+ b) +:+ c = a +:+ (b +:+ c).
Proof.
  induction a as [|x a IH]; [reflexivity|].
  change (String x ((a +:+ b) +:+ c) = String x (a +:+ (b +:+ c))).
  rewrite IH. reflexivity.
Qed.

Lemma append_nonempty (a b : string) : b <> "" -> a +:+ b <> "".
Proof. intros N. destruct a; simpl; [exact N|discriminate]. Qed.

Lemma sessionKey_collision (d x y : string) :
  sessionKey (d +:+ "::" +:+ x) y = sessionKey d (x +:+ "::" +:+ y).
Proof. unfold sessionKey. rewrite !append_assoc. reflexivity. Qed.

Lemma sessionKey_inj (d1 t1 d2 t2 : string) :
  no_colon d1 -> no_colon d2 ->
  sessionKey d1 t1 = sessionKey d2 t2 -> d1 = d2 /\ t1 = t2.
Proof.
  unfold sessionKey, no_colon. revert d2.
  induction d1 as [|c d1 IH]; intros [|c2 d2] N1 N2; simpl in *.
  - intros E. inversion E. auto.
  - intros E. inversion E; subst. exfalso. apply N2. left.
  - intros E. inversion E; subst. exfalso. apply N1. left.
  - intros E. inversion E; subst.
    destruct (IH d2) as [-> ->]; auto.
    + intros Q. apply N1. right. exact Q.
    + intros Q. apply N2. right. exact Q.
Qed.

Section GatewayMore.
Context `{C : DocumentSessionClass}.

(** The role a session is given for a connection is the role the gate
    resolved, a non-empty string: the fallback to "viewer" in the call of
    [addUser] is never taken. *)
Theorem granted_role_reaches_session (ws : nat) (req : Request)
  (redis : Redis) (srv : Server) (docId tabId userId : string)
  (finalRole : option string) :
  reachable srv ->
  q_docId req = Some docId -> q_tabId req = Some tabId ->
  q_userId req = Some userId ->
  docId <> "" -> tabId <> "" -> userId <> "" ->
  access_gate redis docId userId = Granted finalRole ->
  exists r session,
    finalRole = Some r /\ r <> ""
    /\ objects (fst (resolve (sessionKey docId tabId) srv))
         !! snd (resolve (sessionKey docId tabId) srv)
       = Some (sessionKey docId tabId, session)
    /\ actions_of (on_connection ws req redis srv)
       = snd (addUser ws userId r session)
    /\ exists srv',
         on_connection ws req redis srv
         = Returned srv' (snd (addUser ws userId r session))
         /\ sockets srv' !! ws
            = Some (snd (resolve (sessionKey docId tabId) srv),
                    snd (fst (addUser ws userId r session)))
         /\ objects srv' !! snd (resolve (sessionKey docId tabId) srv)
            = Some (sessionKey docId tabId,
                    fst (fst (addUser ws userId r session))).
Proof.
  intros R D T U N1 N2 N3 A. apply reachable_inv in R.
  destruct (granted_role_nonempty _ _ _ _ _ A) as (r & -> & Nr & J).
  destruct (resolved_object (sessionKey docId tabId) srv R) as [session O].
  exists r, session.
  rewrite (on_connection_granted ws req redis srv docId tabId userId
             (Some r) session) by assumption.
  rewrite J. simpl. repeat split; auto.
  eexists. split; [reflexivity|]. simpl. split.
  - apply lookup_insert_eq.
  - rewrite list_lookup_alter_eq, O. reflexivity.
Qed.

(** The session key is the two ids joined by "::", so it does not tell
    where the document id ends: whoever creates the document [d::x] is
    admitted as its owner to tab [y] of it, and lands in the live session
    of tab [x::y] of document [d]. *)
Theorem colliding_keys_share_session (ws ref : nat) (d x y user : string)
  (st : Store) (srv : Server) :
  reachable srv ->
  y <> "" -> user <> "" ->
  sessions srv !! sessionKey d (x +:+ "::" +:+ y) = Some ref ->
  exists session,
    objects srv !! ref = Some (sessionKey d (x +:+ "::" +:+ y), session)
    /\ access_gate (docs (fst (create_doc user (d +:+ "::" +:+ x) st)))
                   (d +:+ "::" +:+ x) user
       = Granted (Some "owner")
    /\ actions_of (on_connection ws (handshake (d +:+ "::" +:+ x) y user)
                     (docs (fst (create_doc user (d +:+ "::" +:+ x) st))) srv)
       = snd (addUser ws user "owner" session)
    /\ exists srv',
         on_connection ws (handshake (d +:+ "::" +:+ x) y user)
           (docs (fst (create_doc user (d +:+ "::" +:+ x) st))) srv
         = Returned srv' (snd (addUser ws user "owner" session))
         /\ sockets srv' !! ws
            = Some (ref, snd (fst (addUser ws user "owner" session)))
         /\ objects srv' !! ref
            = Some (sessionKey d (x +:+ "::" +:+ y),
                    fst (fst (addUser ws user "owner" session))).
Proof.
  intros R Ny Nu S. apply reachable_inv in R.
  assert (G : access_gate (docs (fst (create_doc user (d +:+ "::" +:+ x) st)))
                          (d +:+ "::" +:+ x) user
              = Granted (Some "owner")).
  { unfold access_gate, authorize, redis_get. simpl.
    rewrite lookup_insert_eq. simpl. rewrite String.eqb_refl. reflexivity. }
  assert (Res : resolve (sessionKey (d +:+ "::" +:+ x) y) srv = (srv, ref)).
  { unfold resolve. rewrite sessionKey_collision, S. reflexivity. }
  destruct (resolved_object (sessionKey (d +:+ "::" +:+ x) y) srv R)
    as [session O].
  rewrite Res in O. simpl in O. rewrite sessionKey_collision in O.
  exists session. split; [exact O|]. split; [exact G|].
  rewrite (on_connection_granted ws _ _ srv (d +:+ "::" +:+ x) y user
             (Some "owner") session); try assumption; try reflexivity.
  - rewrite Res. simpl. split; [reflexivity|].
    eexists. split; [reflexivity|]. simpl. split.
    + apply lookup_insert_eq.
    + rewrite list_lookup_alter_eq, O. reflexivity.
  - apply append_nonempty. discriminate.
  - rewrite Res. simpl. rewrite sessionKey_collision. exact O.
Qed.

(** When document ids contain no colon, different (document, tab) pairs
    have different keys and are served by different session objects. *)
Theorem colon_free_ids_isolate_sessions (srv : Server)
  (d1 t1 d2 t2 : string) (r1 r2 : nat) :
  reachable srv ->
  no_colon d1 -> no_colon d2 ->
  (d1, t1) <> (d2, t2) ->
  sessions srv !! sessionKey d1 t1 = Some r1 ->
  sessions srv !! sessionKey d2 t2 = Some r2 ->
  sessionKey d1 t1 <> sessionKey d2 t2 /\ r1 <> r2.
Proof.
  intros R N1 N2 D S1 S2. apply reachable_inv in R. destruct R as (I1 & _).
  assert (K : sessionKey d1 t1 <> sessionKey d2 t2).
  { intros E. apply D.
    destruct (sessionKey_inj d1 t1 d2 t2 N1 N2 E) as [-> ->]. reflexivity. }
  split; [exact K|]. intros E.
  apply I1 in S1, S2. subst r2. congruence.
Qed.

End GatewayMore.

Lemma nested_reachable : reachable nested_server.
Proof.
  exists [EConnection 1 (handshake "d1" "t::1" "alice") demo_redis].
  vm_compute. reflexivity.
Defined.

Lemma no_colon_d1 : no_colon "d1".
Proof.
  unfold no_colon. simpl. intros Q.
  repeat (apply elem_of_cons in Q as [Q|Q]; [discriminate|]).
  inversion Q.
Defined.

Lemma granted_role_reaches_session_witness :
  exists r session,
    Some "editor" = Some r /\ r <> ""
    /\ objects (fst (resolve (sessionKey "d1" "t1") connected_server))
         !! snd (resolve (sessionKey "d1" "t1") connected_server)
       = Some (sessionKey "d1" "t1", session)
    /\ actions_of (on_connection 2 (handshake "d1" "t1" "bob") demo_redis
                                 connected_server)
       = snd (addUser 2 "bob" r session)
    /\ exists srv',
         on_connection 2 (handshake "d1" "t1" "bob") demo_redis
                       connected_server
         = Returned srv' (snd (addUser 2 "bob" r session))
         /\ sockets srv' !! 2
            = Some (snd (resolve (sessionKey "d1" "t1") connected_server),
                    snd (fst (addUser 2 "bob" r session)))
         /\ objects srv' !! snd (resolve (sessionKey "d1" "t1") connected_server)
            = Some (sessionKey "d1" "t1",
                    fst (fst (addUser 2 "bob" r session))).
Proof.
  apply (granted_role_reaches_session 2 (handshake "d1" "t1" "bob") demo_redis
           connected_server "d1" "t1" "bob" (Some "editor")
           connected_reachable);
    try reflexivity; discriminate.
Defined.

Lemma colliding_keys_share_session_witness :
  exists session,
    objects nested_server !! 0 = Some (sessionKey "d1" "t::1", session)
    /\ access_gate (docs (fst (create_doc "mallory" "d1::t" empty_store)))
                   "d1::t" "mallory"
       = Granted (Some "owner")
    /\ actions_of (on_connection 2 (handshake "d1::t" "1" "mallory")
                     (docs (fst (create_doc "mallory" "d1::t" empty_store)))
                     nested_server)
       = snd (addUser 2 "mallory" "owner" session)
    /\ exists srv',
         on_connection 2 (handshake "d1::t" "1" "mallory")
           (docs (fst (create_doc "mallory" "d1::t" empty_store)))
           nested_server
         = Returned srv' (snd (addUser 2 "mallory" "owner" session))
         /\ sockets srv' !! 2
            = Some (0, snd (fst (addUser 2 "mallory" "owner" session)))
         /\ objects srv' !! 0
            = Some (sessionKey "d1" "t::1",
                    fst (fst (addUser 2 "mallory" "owner" session))).
Proof.
  apply (colliding_keys_share_session 2 0 "d1" "t" "1" "mallory" empty_store
           nested_server nested_reachable);
    [discriminate | discriminate | vm_compute; reflexivity].
Defined.

Lemma colon_free_ids_isolate_sessions_witness :
  sessionKey "d1" "t1" <> sessionKey "d1" "t2" /\ 0 <> 1.
Proof.
  apply (colon_free_ids_isolate_sessions demo_server "d1" "t1" "d1" "t2" 0 1
           demo_reachable no_colon_d1 no_colon_d1);
    [discriminate | vm_compute; reflexivity | vm_compute; reflexivity].
Defined.

(** * The API as a whole *)

Lemma smembers_sadd (m : gmap string (gset string)) (key member key' : string) :
  redis_smembers (redis_sadd m key member) key'
  = if decide (key = key') then {[member]} ∪ redis_smembers m key
    else redis_smembers m key'.
Proof.
  unfold redis_smembers, redis_sadd. case_decide as E.
  - subst. rewrite lookup_insert_eq. reflexivity.
  - rewrite lookup_insert_ne by exact E. reflexivity.
Qed.

Lemma lrange_rpush (m : gmap string (list string)) (key value key' : string) :
  redis_lrange (redis_rpush m key value) key'
  = if decide (key = key') then redis_lrange m key ++ [value]
    else redis_lrange m key'.
Proof.
  unfold redis_lrange, redis_rpush. case_decide as E.
  - subst. rewrite lookup_insert_eq. reflexivity.
  - rewrite lookup_insert_ne by exact E. reflexivity.
Qed.

Section ApiFacts.
Context `{L : Libraries}.

(** The account endpoints touch the credentials and the tokens only. *)
Lemma account_frame (c : ApiCall) (st : Store) :
  match c with
  | Signup _ _ _ | Login _ _ | ForgotPassword _ _ _ | ResetPassword _ _ _ =>
      docs (fst (api c st)) = docs st
      /\ user_docs (fst (api c st)) = user_docs st
      /\ doc_tabs (fst (api c st)) = doc_tabs st
  | _ => user_auth (fst (api c st)) = user_auth st
         /\ reset_token (fst (api c st)) = reset_token st
  end.
Proof.
  destruct c; simpl;
    unfold signup, login, forgot_password, reset_password, list_docs,
      create_doc, list_users, add_user, remove_user, link_settings,
      get_tabs, add_tab, set_docs;
    repeat case_match; simpl; auto.
Qed.

Lemma login_store (email password : option string) (st : Store) :
  fst (login email password st) = st.
Proof. unfold login. repeat case_match; reflexivity. Qed.

Lemma tokens_step (e : ApiEvent) (st : Store) :
  (forall t a, reset_token st !! t = Some a ->
     a <> "" /\ is_Some (user_auth st !! a)) ->
  forall t a, reset_token (api_step e st) !! t = Some a ->
    a <> "" /\ is_Some (user_auth (api_step e st) !! a).
Proof.
  intros I t a.
  destruct e as [c|token]; simpl.
  2:{ intros Q. apply lookup_delete_Some in Q as [_ Q]. exact (I t a Q). }
  pose proof (account_frame c st) as F.
  destruct c; simpl in *;
    try (destruct F as [-> ->]; apply I).
  - destruct (signup_cases salt email password st) as [A B].
    destruct (decide (status (snd (signup salt email password st)) = 200))
      as [E|E].
    + destruct (B E) as (e & p & _ & _ & _ & _ & _ & _ & _ & -> & _). simpl.
      intros Q. destruct (I t a Q) as [Na S]. split; [exact Na|].
      apply lookup_insert_is_Some'. right. exact S.
    + rewrite (A E). apply I.
  - rewrite login_store. apply I.
  - unfold forgot_password.
    destruct (falsy email) eqn:Fe; [apply I|].
    apply falsy_false in Fe as (x & -> & Nx). simpl.
    destruct (falsy (user_auth st !! x)) eqn:Fa; [apply I|].
    apply falsy_false in Fa as (h & Ha & _).
    destruct mailed; simpl; intros Q;
      (apply lookup_insert_Some in Q as [[<- <-]|[_ Q]];
       [split; [exact Nx | rewrite Ha; eauto] | exact (I t a Q)]).
  - unfold reset_password. repeat case_match; simpl; try apply I.
    intros Q. apply lookup_delete_Some in Q as [_ Q].
    destruct (I t a Q) as [Na S]. split; [exact Na|].
    apply lookup_insert_is_Some'. right. exact S.
  - apply I.
  - apply I.
  - apply I.
  - apply I.
Qed.

Lemma owned_step (e : ApiEvent) (st : Store) :
  store_inv st ->
  forall d o, doc_owner (docs (api_step e st)) !! d = Some o ->
    is_Some (redis_hget (doc_settings (docs (api_step e st))) d "link_access")
    /\ redis_lrange (doc_tabs (api_step e st)) d <> []
    /\ d ∈ redis_smembers (user_docs (api_step e st)) o.
Proof.
  intros (_ & I4).
  destruct e as [c|token]; simpl; [|auto].
  pose proof (account_frame c st) as F.
  assert (App : forall (l : list string) x, l ++ [x] <> []).
  { intros l x Q. apply app_eq_nil in Q as [_ Q]. discriminate. }
  destruct c; simpl in *;
    try (destruct F as (F1 & F2 & F3); rewrite F1, F2, F3; auto); clear F.
  - exact I4.
  - intros d o Q. rewrite hget_hset, lrange_rpush, smembers_sadd.
    destruct (decide (docId = d)) as [<-|N].
    + rewrite lookup_insert_eq in Q. inversion Q; subst.
      rewrite decide_True by auto. rewrite decide_True by auto.
      split_and!; [eauto | apply App |].
      apply elem_of_union. left. apply elem_of_singleton. reflexivity.
    + rewrite lookup_insert_ne in Q by exact N.
      destruct (I4 d o Q) as (A & B & M).
      rewrite decide_False by (intros [? _]; auto).
      split_and!; [exact A | exact B |].
      case_decide; [apply elem_of_union; right; subst; exact M | exact M].
  - exact I4.
  - unfold add_user.
    destruct (isOwner st docId ownerId) eqn:O; simpl; [|exact I4].
    intros d o Q. destruct (I4 d o Q) as (A & B & M).
    split_and!; [exact A | exact B |].
    rewrite smembers_sadd.
    case_decide; [apply elem_of_union; right; subst; exact M | exact M].
  - unfold remove_user.
    destruct (isOwner st docId ownerId) eqn:O; simpl; exact I4.
  - unfold link_settings.
    destruct (isOwner st docId ownerId) eqn:O; simpl; [|exact I4].
    intros d o Q. destruct (I4 d o Q) as (A & B & M).
    split_and!; [|exact B|exact M].
    rewrite hget_hset. case_decide; [eauto | exact A].
  - unfold get_tabs.
    destruct (redis_lrange (doc_tabs st) docId) eqn:T; simpl; [|exact I4].
    intros d o Q. destruct (I4 d o Q) as (A & B & M).
    split_and!; [exact A| |exact M].
    rewrite lrange_rpush. case_decide; [apply App | exact B].
  - intros d o Q. destruct (I4 d o Q) as (A & B & M).
    split_and!; [exact A| |exact M].
    rewrite lrange_rpush. case_decide; [apply App | exact B].
Qed.

Lemma api_step_inv (e : ApiEvent) (st : Store) :
  store_inv st -> store_inv (api_step e st).
Proof.
  intros I. split.
  - apply tokens_step. apply I.
  - apply owned_step. exact I.
Qed.

Lemma api_run_inv (es : list ApiEvent) (st : Store) :
  store_inv st -> store_inv (api_run es st).
Proof.
  revert st. induction es as [|e es IH]; intros st I; [exact I|].
  simpl. apply IH. apply api_step_inv. exact I.
Qed.

Lemma api_reachable_inv (st : Store) : api_reachable st -> store_inv st.
Proof.
  intros [es <-]. apply api_run_inv.
  split_and!; simpl; intros *; rewrite ?lookup_empty; discriminate.
Qed.

(** The owner check decides what the sharing endpoints write: an ACL
    entry or a setting is written for a document that has an owner, or by
    a request that carries [ownerId: null]. *)
Lemma shared_step (P : string -> Prop) (e : ApiEvent) (st : Store) :
  shared_inv P st ->
  shared_inv (fun d => P d \/ null_owner_write d e) (api_step e st).
Proof.
  intros (I2 & I3).
  assert (W : shared_inv (fun d => P d \/ null_owner_write d e) st).
  { split; [intros d u r Q; destruct (I2 d u r Q)
           |intros d f v Q; destruct (I3 d f v Q)]; auto. }
  destruct e as [c|token]; simpl; [|exact W].
  pose proof (account_frame c st) as F.
  destruct c; simpl in *;
    try (destruct F as (F1 & F2 & F3); unfold shared_inv in *; rewrite F1;
         exact W); clear F.
  - exact W.
  - destruct W as (W2 & W3). split.
    + intros d u r Q. simpl. destruct (decide (docId = d)) as [<-|N].
      * rewrite lookup_insert_eq. eauto.
      * rewrite lookup_insert_ne by exact N. simpl in Q. rewrite hget_hset in Q.
        rewrite decide_False in Q by (intros [? _]; auto). eauto.
    + intros d f v Q. simpl. destruct (decide (docId = d)) as [<-|N].
      * rewrite lookup_insert_eq. eauto.
      * rewrite lookup_insert_ne by exact N. simpl in Q. rewrite hget_hset in Q.
        rewrite decide_False in Q by (intros [? _]; auto). eauto.
  - exact W.
  - unfold add_user.
    destruct (isOwner st docId ownerId) eqn:O; simpl; [|exact W].
    destruct W as (W2 & W3). split; [|exact W3].
    intros d u r Q. simpl in *. rewrite hget_hset in Q.
    case_decide as E; [|eauto]. destruct E as [<- <-].
    destruct ownerId as [s| |]; [| |discriminate].
    + apply isOwner_true in O. rewrite O. eauto.
    + right. right. reflexivity.
  - unfold remove_user.
    destruct (isOwner st docId ownerId) eqn:O; simpl; [|exact W].
    destruct W as (W2 & W3). split; [|exact W3].
    intros d u r Q. simpl in *. rewrite hget_hdel in Q.
    case_decide; [discriminate | eauto].
  - unfold link_settings.
    destruct (isOwner st docId ownerId) eqn:O; simpl; [|exact W].
    destruct W as (W2 & W3). split; [exact W2|].
    intros d f v Q. simpl in *. rewrite hget_hset in Q.
    case_decide as E; [|eauto]. destruct E as [<- <-].
    destruct ownerId as [s| |]; [| |discriminate].
    + apply isOwner_true in O. rewrite O. eauto.
    + right. right. reflexivity.
  - unfold get_tabs.
    destruct (redis_lrange (doc_tabs st) docId); simpl; exact W.
  - exact W.
Qed.

Lemma shared_run (es : list ApiEvent) (P : string -> Prop) (st : Store) :
  shared_inv P st ->
  shared_inv (fun d => P d \/ Exists (null_owner_write d) es) (api_run es st).
Proof.
  revert P st. induction es as [|e es IH]; intros P st I; simpl.
  - destruct I as (I2 & I3).
    split; [intros d u r Q; destruct (I2 d u r Q)
           |intros d f v Q; destruct (I3 d f v Q)]; auto.
  - destruct (IH _ _ (shared_step P e st I)) as (I2 & I3).
    assert (M : forall d,
               (P d \/ null_owner_write d e) \/ Exists (null_owner_write d) es ->
               P d \/ Exists (null_owner_write d) (e :: es)).
    { intros d [[A|A]|A];
        [left; exact A | right; apply Exists_cons_hd; exact A
        |right; apply Exists_cons_tl; exact A]. }
    split.
    + intros d u r Q.
      destruct (I2 d u r Q) as [A|A]; [left; exact A | right; apply M; exact A].
    + intros d f v Q.
      destruct (I3 d f v Q) as [A|A]; [left; exact A | right; apply M; exact A].
Qed.

(** A reset token in the store always names an address that has
    credentials: tokens are issued for accounts only, and no endpoint
    removes an account. *)
Theorem reset_tokens_name_accounts (st : Store) (t e : string) :
  api_reachable st ->
  reset_token st !! t = Some e ->
  e <> "" /\ is_Some (user_auth st !! e).
Proof.
  intros R. apply api_reachable_inv in R. apply R.
Qed.

(** The gate admits nobody to a document that was never created, as long
    as no sharing request carried [ownerId: null] for it: whatever
    requests the API has served from an empty Redis, a user that the gate
    grants a role connects to a document that has an owner, or to one
    that such a request has written to. *)
Theorem gate_admits_only_created_documents (es : list ApiEvent)
  (d u : string) (finalRole : option string) :
  access_gate (docs (api_run es empty_store)) d u = Granted finalRole ->
  is_Some (doc_owner (docs (api_run es empty_store)) !! d)
  \/ Exists (null_owner_write d) es.
Proof.
  destruct (shared_run es (fun _ => False) empty_store) as (I2 & I3).
  { split; simpl; intros *; unfold redis_hget; simpl;
      rewrite lookup_empty; discriminate. }
  unfold access_gate, authorize, redis_get.
  destruct (strict_eq u (doc_owner (docs (api_run es empty_store)) !! d))
    eqn:O.
  - apply strict_eq_true in O. rewrite O. eauto.
  - simpl.
    destruct (redis_hget (doc_acl (docs (api_run es empty_store))) d u)
      as [r|] eqn:A.
    { intros _. destruct (I2 d u r A) as [Q|[[]|Q]]; auto. }
    simpl.
    destruct (redis_hget (doc_settings (docs (api_run es empty_store))) d
                         "link_access") as [v|] eqn:S.
    { intros _. destruct (I3 d _ v S) as [Q|[[]|Q]]; auto. }
    simpl. discriminate.
Qed.

(** A document that has an owner is complete: it has a link setting,
    at least one tab, and it is in the list of documents of its owner. *)
Theorem owned_documents_are_complete (st : Store) (d o : string) :
  api_reachable st ->
  doc_owner (docs st) !! d = Some o ->
  is_Some (redis_hget (doc_settings (docs st)) d "link_access")
  /\ (exists t tabs, get_tabs d st = (st, ok (BTabs (t :: tabs))))
  /\ (exists ids, snd (list_docs o st) = ok (BDocs ids) /\ d ∈ ids).
Proof.
  intros R Q. apply api_reachable_inv in R. destruct R as (_ & I4).
  destruct (I4 d o Q) as (A & B & M). split_and!.
  - exact A.
  - unfold get_tabs. destruct (redis_lrange (doc_tabs st) d) as [|t tabs];
      [congruence|eauto].
  - eexists. split; [reflexivity|exact M].
Qed.

Lemma api_step_monotone (e : ApiEvent) (st : Store) :
  (forall a, is_Some (user_auth st !! a) ->
     is_Some (user_auth (api_step e st) !! a))
  /\ (forall d, is_Some (doc_owner (docs st) !! d) ->
        is_Some (doc_owner (docs (api_step e st)) !! d))
  /\ (forall u, redis_smembers (user_docs st) u
                ⊆ redis_smembers (user_docs (api_step e st)) u)
  /\ (forall d, redis_lrange (doc_tabs st) d
                `prefix_of` redis_lrange (doc_tabs (api_step e st)) d).
Proof.
  destruct e as [c|token]; simpl; [|split_and!; auto].
  destruct c; simpl;
    unfold signup, login, forgot_password, reset_password, list_docs,
      create_doc, list_users, add_user, remove_user, link_settings,
      get_tabs, add_tab, set_docs, set_auth;
    repeat case_match; simpl; split_and!; auto;
    intros x; rewrite ?smembers_sadd, ?lrange_rpush;
    try case_decide; subst; auto;
    try (intros S; apply lookup_insert_is_Some'; right; exact S);
    try (apply union_subseteq_r);
    try (apply prefix_app_r; reflexivity).
Qed.

(** Nothing is ever taken back: whatever requests are served and
    whatever tokens expire, an account stays an account, a document that
    has an owner keeps having one, the list of documents of a user only
    grows, and the tabs of a document keep their order and only get new
    tabs at the end. *)
Theorem api_never_removes (es : list ApiEvent) (st : Store) :
  (forall a, is_Some (user_auth st !! a) ->
     is_Some (user_auth (api_run es st) !! a))
  /\ (forall d, is_Some (doc_owner (docs st) !! d) ->
        is_Some (doc_owner (docs (api_run es st)) !! d))
  /\ (forall u, redis_smembers (user_docs st) u
                ⊆ redis_smembers (user_docs (api_run es st)) u)
  /\ (forall d, redis_lrange (doc_tabs st) d
                `prefix_of` redis_lrange (doc_tabs (api_run es st)) d).
Proof.
  revert st. induction es as [|e es IH]; intros st; simpl.
  - split_and!; auto.
  - destruct (IH (api_step e st)) as (A & B & M & T).
    destruct (api_step_monotone e st) as (A' & B' & M' & T').
    split_and!; intros x.
    + intros Q. apply A, A', Q.
    + intros Q. apply B, B', Q.
    + etrans; [apply M'|apply M].
    + etrans; [apply T'|apply T].
Qed.

(** The credentials of an address change in two ways only: a signup for
    an address that had none, and a reset that presents a token issued
    for that address.  No other request, and no request on the documents,
    changes a password. *)
Theorem credentials_change_needs_token (e : ApiEvent) (st : Store)
  (a : string) :
  user_auth (api_step e st) !! a <> user_auth st !! a ->
  (exists salt p,
     e = Served (Signup salt (Some a) (Some p))
     /\ falsy (user_auth st !! a) = true
     /\ user_auth (api_step e st) !! a = Some (bcrypt_hash p salt))
  \/ (exists salt t p,
        e = Served (ResetPassword salt (Some t) (Some p))
        /\ reset_token st !! t = Some a
        /\ reset_token (api_step e st) !! t = None
        /\ user_auth (api_step e st) !! a = Some (bcrypt_hash p salt)).
Proof.
  destruct e as [c|token]; simpl; [|intros Q; contradiction].
  pose proof (account_frame c st) as F.
  destruct c; simpl in *;
    try (destruct F as [-> _]; intros Q; contradiction); clear F.
  - destruct (signup_cases salt email password st) as [A B].
    destruct (decide (status (snd (signup salt email password st)) = 200))
      as [E|E]; [|rewrite (A E); intros Q; contradiction].
    destruct (B E) as (x & p & -> & -> & _ & _ & _ & Fx & _ & -> & _).
    simpl. intros Q. left. exists salt, p.
    destruct (decide (x = a)) as [->|N].
    + rewrite lookup_insert_eq. auto.
    + rewrite lookup_insert_ne in Q by exact N. contradiction.
  - rewrite login_store. intros Q. contradiction.
  - unfold forgot_password. repeat case_match; simpl; intros Q; contradiction.
  - unfold reset_password.
    destruct (falsy token || falsy newPassword) eqn:Ft;
      [intros Q; contradiction|].
    apply orb_false_iff in Ft as [Ft Fp].
    apply falsy_false in Ft as (t & -> & Nt).
    apply falsy_false in Fp as (p & -> & Np). simpl.
    destruct (falsy (reset_token st !! t)) eqn:Fr;
      [intros Q; contradiction|].
    apply falsy_false in Fr as (x & Hx & Nx). rewrite Hx. simpl.
    destruct (strong_password p); simpl; [|intros Q; contradiction].
    intros Q. right. exists salt, t, p.
    destruct (decide (x = a)) as [->|N].
    + rewrite lookup_insert_eq, lookup_delete_eq. auto.
    + rewrite lookup_insert_ne in Q by exact N. contradiction.
  - intros Q. contradiction.
  - intros Q. contradiction.
  - intros Q. contradiction.
  - intros Q. contradiction.
Qed.

End ApiFacts.

(** Creating a document under an id that exists takes the document over:
    the new creator is the owner, the previous one can no longer manage
    the sharing, and yet the gate still admits the previous one with the
    role owner, which the ACL kept. *)
Theorem create_doc_over_existing (u1 u2 docId : string) (st : Store) :
  u1 <> u2 ->
  let st1 := fst (create_doc u1 docId st) in
  let st2 := fst (create_doc u2 docId st1) in
  isOwner st2 docId u2 = true
  /\ isOwner st2 docId u1 = false
  /\ (forall email role,
        add_user docId u1 email role st2 = (st2, fail 403 "Not owner"))
  /\ access_gate (docs st2) docId u2 = Granted (Some "owner")
  /\ access_gate (docs st2) docId u1 = Granted (Some "owner").
Proof.
  intros N st1 st2.
  assert (O2 : isOwner st2 docId u2 = true).
  { apply isOwner_true. simpl. apply lookup_insert_eq. }
  assert (O1 : isOwner st2 docId u1 = false).
  { destruct (isOwner st2 docId u1) eqn:O; [|reflexivity].
    apply isOwner_true in O. simpl in O. rewrite lookup_insert_eq in O.
    congruence. }
  split_and!; [exact O2 | exact O1 | | |].
  - intros email role. unfold add_user. rewrite O1. reflexivity.
  - unfold access_gate, authorize. fold (isOwner st2 docId u2).
    rewrite O2. reflexivity.
  - unfold access_gate, authorize. fold (isOwner st2 docId u1).
    rewrite O1. simpl. rewrite !hget_hset.
    rewrite decide_False by (intros [_ E]; congruence).
    rewrite decide_True by auto. reflexivity.
Qed.

(** What the sharing dialog is shown is what the gate enforces: for a
    user who is not the owner, the gate gives the role listed for the user
    if there is one, and otherwise what the listed link access says. *)
Theorem list_users_shows_the_gate (docId u : string) (st : Store) :
  exists acl linkAccess,
    list_users docId st = (st, ok (BUsers acl linkAccess))
    /\ linkAccess <> ""
    /\ (doc_owner (docs st) !! docId <> Some u ->
        access_gate (docs st) docId u
        = if falsy (acl !! u)
          then (if String.eqb linkAccess "none" then Denied
                else Granted (Some linkAccess))
          else Granted (acl !! u)).
Proof.
  eexists _, _. split; [reflexivity|]. split.
  - unfold js_or.
    destruct (redis_hget (doc_settings (docs st)) docId "link_access")
      as [v|]; [|discriminate].
    destruct (String.eqb v "") eqn:E; [discriminate|].
    apply String.eqb_neq. exact E.
  - intros N. unfold access_gate, authorize. fold (isOwner st docId u).
    destruct (isOwner st docId u) eqn:O;
      [apply isOwner_true in O; contradiction|].
    simpl.
    assert (E : redis_hgetall (doc_acl (docs st)) docId !! u
                = redis_hget (doc_acl (docs st)) docId u).
    { unfold redis_hgetall, redis_hget.
      destruct (doc_acl (docs st) !! docId); simpl; [reflexivity|].
      apply lookup_empty. }
    rewrite E.
    destruct (falsy (redis_hget (doc_acl (docs st)) docId u)); simpl;
      [|reflexivity].
    destruct (String.eqb _ "none"); reflexivity.
Qed.

(** ** The API on concrete requests *)

Lemma token_reachable : @api_reachable Toy token_store.
Proof.
  exists token_trace. reflexivity.
Defined.

Lemma reset_tokens_name_accounts_witness :
  "alice@example.org" <> ""
  /\ is_Some (user_auth token_store !! "alice@example.org").
Proof.
  apply (reset_tokens_name_accounts token_store "t1" "alice@example.org"
           token_reachable).
  vm_compute. reflexivity.
Defined.

Lemma gate_admits_only_created_documents_witness :
  is_Some (doc_owner (docs (@api_run Toy token_trace empty_store)) !! "d1")
  \/ Exists (null_owner_write "d1") token_trace.
Proof.
  apply (gate_admits_only_created_documents token_trace "d1"
           "bob@example.org" (Some "editor")).
  vm_compute. reflexivity.
Defined.

Lemma owned_documents_are_complete_witness :
  is_Some (redis_hget (doc_settings (docs token_store)) "d1" "link_access")
  /\ (exists t tabs,
        get_tabs "d1" token_store = (token_store, ok (BTabs (t :: tabs))))
  /\ (exists ids,
        snd (list_docs "alice@example.org" token_store) = ok (BDocs ids)
        /\ "d1" ∈ ids).
Proof.
  apply (owned_documents_are_complete token_store "d1" "alice@example.org"
           token_reachable).
  vm_compute. reflexivity.
Defined.

Lemma credentials_change_needs_token_witness :
  (exists salt p,
     Served (ResetPassword "s2" (Some "t1") (Some "bB?"))
     = Served (Signup salt (Some "alice@example.org") (Some p))
     /\ falsy (user_auth token_store !! "alice@example.org") = true
     /\ user_auth (api_step (Served (ResetPassword "s2" (Some "t1")
                                                   (Some "bB?")))
                            token_store) !! "alice@example.org"
        = Some (bcrypt_hash p salt))
  \/ (exists salt t p,
        Served (ResetPassword "s2" (Some "t1") (Some "bB?"))
        = Served (ResetPassword salt (Some t) (Some p))
        /\ reset_token token_store !! t = Some "alice@example.org"
        /\ reset_token (api_step (Served (ResetPassword "s2" (Some "t1")
                                                        (Some "bB?")))
                                 token_store) !! t = None
        /\ user_auth (api_step (Served (ResetPassword "s2" (Some "t1")
                                                      (Some "bB?")))
                               token_store) !! "alice@example.org"
           = Some (bcrypt_hash p salt)).
Proof.
  apply (credentials_change_needs_token
           (Served (ResetPassword "s2" (Some "t1") (Some "bB?")))
           token_store "alice@example.org").
  vm_compute. discriminate.
Defined.

Lemma create_doc_over_existing_witness :
  let st2 := fst (create_doc "mallory" "d1"
                    (fst (create_doc "alice" "d1" empty_store))) in
  isOwner st2 "d1" "mallory" = true
  /\ isOwner st2 "d1" "alice" = false
  /\ (forall email role,
        add_user "d1" "alice" email role st2 = (st2, fail 403 "Not owner"))
  /\ access_gate (docs st2) "d1" "mallory" = Granted (Some "owner")
  /\ access_gate (docs st2) "d1" "alice" = Granted (Some "owner").
Proof.
  apply (create_doc_over_existing "alice" "mallory" "d1" empty_store).
  discriminate.
Defined.
